(** * react-midi-context: the status-byte table, the message encoder, the
    controller-value store, the device registries and the send facades.

    The repository holds two revisions of [src/index.tsx].  The older one
    (lines 1-600 of the file) is embedded in module [V1], the newer one
    (lines 601-1073) in module [V2]; code that is literally the same in both
    revisions ([useStoreData], the [reducer] of [MIDIProvider]) is embedded
    once.

    Conventions of the embedding:
    - a JavaScript number is an integer [Z] (MIDI bytes, channels, controller
      numbers); an optional field is an [option], [None] being [undefined];
    - a plain object used as a dictionary is a [gmap]; numeric property keys
      are kept as [Z] (distinct integers give distinct property names);
    - an object whose identity matters (a device handle put in a [Set]) is a
      reference into a heap;
    - a function that can throw returns a [result]; an [async] function
      returns a settled [promise]. *)

From Stdlib Require Import ZArith List Bool Lia Ascii Strings.Byte.
From stdpp Require Import base option list strings pretty gmap functions.

Local Open Scope Z_scope.

(** ** JavaScript values and control flow *)

Module JS.

(** What a [throw] carries: [new Error(msg)] or an engine [TypeError]. *)
Inductive exn : Type :=
  | Error (message : string)
  | TypeError.

Inductive result (A : Type) : Type :=
  | Ok (a : A)
  | Throw (e : exn).
Arguments Ok {A} a.
Arguments Throw {A} e.

(** A settled promise: what [await] sees. *)
Inductive promise (A : Type) : Type :=
  | Fulfilled (a : A)
  | Rejected (e : exn).
Arguments Fulfilled {A} a.
Arguments Rejected {A} e.

(** [await p] inside [try]: a rejection is thrown at the [await]. *)
Definition await {A} (p : promise A) : result A :=
  match p with
  | Fulfilled a => Ok a
  | Rejected e => Throw e
  end.

(** Truthiness of a number: [0] is falsy. *)
Definition truthy (n : Z) : bool := negb (n =? 0).

(** Truthiness of an optional number: [undefined] and [0] are falsy. *)
Definition truthy_opt (o : option Z) : bool :=
  match o with
  | Some n => truthy n
  | None => false
  end.

(** [typeof(x) === 'number'] for an optional number. *)
Definition is_number (o : option Z) : bool :=
  match o with
  | Some _ => true
  | None => false
  end.

(** [a || b] where [a] is an optional number and [b] a number. *)
Definition or (a : option Z) (b : Z) : Z :=
  match a with
  | Some n => if truthy n then n else b
  | None => b
  end.

(** [a || b] on two optional numbers. *)
Definition or_opt (a b : option Z) : option Z :=
  if truthy_opt a then a else b.

(** [a ?? b]: only [undefined] (or [null]) is replaced. *)
Definition nullish {A} (a : option A) (b : A) : A :=
  match a with
  | Some x => x
  | None => b
  end.

(** [a ?? b] on two optional values. *)
Definition nullish_opt {A} (a b : option A) : option A :=
  match a with
  | Some x => Some x
  | None => b
  end.

(** The body of a [case] clause of a [switch] over strings whose clauses
    are single statements: either [return z;] or an expression statement
    [z;], which has no effect and lets control fall into the next clause. *)
Inductive clause : Type :=
  | Return (z : Z)
  | ExprStmt (z : Z).

(** Run the clause bodies from the head of [cases] on, until a [return];
    [dflt] is what the trailing [default:] clause returns. *)
Fixpoint fall_through (cases : list (string * clause)) (dflt : Z) : Z :=
  match cases with
  | [] => dflt
  | (_, Return z) :: _ => z
  | (_, ExprStmt _) :: rest => fall_through rest dflt
  end.

(** [switch (s) { case l1: ...; ...; default: return dflt; }]: the first
    clause whose label is strictly equal to [s] is entered. *)
Fixpoint switch (cases : list (string * clause)) (dflt : Z) (s : string) : Z :=
  match cases with
  | [] => dflt
  | (l, body) :: rest =>
      if String.eqb s l then fall_through cases dflt else switch rest dflt s
  end.

End JS.

Import JS.

(** ** Device handles

    [MIDIPort] (lines 47-56) with the fields the code reads; [MIDIOutput]
    adds [send], [MIDIInput] adds [onmidimessage], [open] and [close]. *)

Record MIDIPort : Type := {
  port_id : string;
  port_name : string;
  port_connection : string;
  port_state : string
}.

(** [send(msg)] of the platform is synchronous and may raise: [send_raises
    msg] is what it raises on [msg], if anything. *)
Record MIDIOutput : Type := {
  out_port : MIDIPort;
  send_raises : list Z → option exn
}.

(** A function value is known by its identity. *)
Definition callback : Type := nat.

(** What [input.onmidimessage] holds: nothing, the default pass-through
    [(msg) => onMIDIMessage(msg)], or the wrapper [(msg) => cb(msg)] that
    also hands the decoded message to the caller's [callback]. *)
Inductive handler : Type :=
  | NoHandler
  | PassThrough
  | Wrapped (cb : callback).

(** A capability such as [open] or [close]: either the property is not a
    function ([Missing]: calling it is a [TypeError]), or the call returns
    a promise that the platform fulfils or rejects. *)
Inductive capability : Type :=
  | Missing
  | Resolves
  | Rejects (e : exn).

Record MIDIInput : Type := {
  in_port : MIDIPort;
  onmidimessage : handler;
  open : capability;
  close : capability
}.

(** Calling a capability inside an [async] function and awaiting it: how
    the call ends.  What the platform does to the port when the call
    resolves (its [connection] changes) is not recorded: the objects after
    a call are as the code left them. *)
Definition call_async (c : capability) : result unit :=
  match c with
  | Missing => Throw TypeError
  | Resolves => Ok tt
  | Rejects e => Throw e
  end.

(** ** The controller-value store: [useStoreData] (lines 201-254, and the
    same text at lines 704-757) *)

Module useStoreData.

(** [store.current]: two indexes, both plain objects built by [set].
    [byChannel[channel][cc]] and [byDevice[device.id][channel][cc]] are
    numbers. *)
Record Store : Type := {
  byDevice : gmap string (gmap Z (gmap Z Z));
  byChannel : gmap Z (gmap Z Z)
}.

(** [useRef({ byDevice: {}, byChannel: {} })] *)
Definition initial : Store := {| byDevice := ∅; byChannel := ∅ |}.

(** The argument of [get]. *)
Record Query : Type := {
  q_channel : option Z;
  q_cc : option Z;
  q_device : option MIDIPort
}.

(** The argument of [set]. *)
Record Update : Type := {
  u_channel : Z;
  u_cc : Z;
  u_value : Z;
  u_device : MIDIPort
}.

(** The shape the filter callback of [get] reads from each element:
    [record.channel] and [record.cc]. *)
Record CCRecord : Type := {
  rec_channel : Z;
  rec_cc : Z;
  rec_value : Z
}.

(** What [store.current.byDevice[device.id]] evaluates to.  [set] only ever
    stores plain objects there, so a lookup gives [Undefined] or a
    [PlainObject]; [ArrayOf] is what the array spread of [get] would need. *)
Inductive stored : Type :=
  | Undefined
  | PlainObject (m : gmap Z (gmap Z Z))
  | ArrayOf (l : list CCRecord).

Definition byDevice_at (s : Store) (id : string) : stored :=
  match byDevice s !! id with
  | Some m => PlainObject m
  | None => Undefined
  end.

(** [[...x]]: [x] must be iterable; [undefined] and plain objects are not,
    and the spread raises a [TypeError]. *)
Definition array_spread (x : stored) : result (list CCRecord) :=
  match x with
  | ArrayOf l => Ok l
  | PlainObject _ => Throw TypeError
  | Undefined => Throw TypeError
  end.

(** [{...x}]: spreading [undefined] adds no property. *)
Definition object_spread {K A} `{Countable K} (x : option (gmap K A)) : gmap K A :=
  match x with
  | Some m => m
  | None => ∅
  end.

(** The callback given to [filter] (lines 211-215). *)
Definition keep (channel cc : option Z) (record : CCRecord) : bool :=
  if truthy_opt channel && negb (bool_decide (Some (rec_channel record) = channel))
  then false
  else if truthy_opt cc && negb (bool_decide (Some (rec_cc record) = cc))
  then false
  else true.

(** The four shapes of what [get] returns. *)
Inductive answer : Type :=
  | WholeStore (s : Store)
  | Records (l : list CCRecord)
  | ChannelValues (m : option (gmap Z Z))
  | Value (v : option Z).

(** [get] (lines 207-220).  [props] is [None] when [get] is called without
    argument. *)
Definition get (props : option Query) (s : Store) : result answer :=
  match props with
  | None => Ok (WholeStore s)
  | Some q =>
      match q_device q with
      | Some device =>
          match array_spread (byDevice_at s (port_id device)) with
          | Ok l => Ok (Records (filter (λ record, keep (q_channel q) (q_cc q) record = true) l))
          | Throw e => Throw e
          end
      | None =>
          if negb (truthy_opt (q_channel q)) then Ok (WholeStore s)
          else
            let channel := nullish (q_channel q) 0 in
            if negb (truthy_opt (q_cc q)) then Ok (ChannelValues (byChannel s !! channel))
            else
              let cc := nullish (q_cc q) 0 in
              match byChannel s !! channel with
              | Some m => Ok (Value (m !! cc))
              | None => Throw TypeError
              end
      end
  end.

(** [set] (lines 221-241): one assignment to [store.current] of a new
    object holding both updated indexes. *)
Definition set (value : Update) (s : Store) : Store :=
  let id := port_id (u_device value) in
  {| byChannel :=
       <[ u_channel value :=
            <[ u_cc value := u_value value ]>
              (object_spread (byChannel s !! u_channel value)) ]>
         (byChannel s);
     byDevice :=
       <[ id :=
            <[ u_channel value :=
                 <[ u_cc value := u_value value ]>
                   (object_spread (byDevice s !! id ≫= (λ d : gmap Z (gmap Z Z), d !! u_channel value))) ]>
              (object_spread (byDevice s !! id)) ]>
         (byDevice s) |}.

(** The state of the hook: [store.current], [subscribers.current], and the
    log of the subscriber callbacks that were called, oldest first. *)
Record Hook : Type := {
  store : Store;
  subscribers : gset callback;
  called : list callback
}.

Definition mount : Hook :=
  {| store := initial; subscribers := ∅; called := [] |}.

(** [() => subscribers.current.delete(callback)]: [Set.prototype.delete]
    answers whether the element was there. *)
Definition unsubscribe (cb : callback) (h : Hook) : bool * Hook :=
  (bool_decide (cb ∈ subscribers h),
   {| store := store h; subscribers := subscribers h ∖ {[cb]}; called := called h |}).

(** [subscribe] (lines 244-247): adds the callback and returns the closure
    that deletes it. *)
Definition subscribe (cb : callback) (h : Hook) : (Hook → bool * Hook) * Hook :=
  (unsubscribe cb,
   {| store := store h; subscribers := {[cb]} ∪ subscribers h; called := called h |}).

(** [set] seen from the hook: it assigns [store.current] and does nothing
    else; in particular it does not read [subscribers]. *)
Definition hook_set (value : Update) (h : Hook) : Hook :=
  {| store := set value (store h); subscribers := subscribers h; called := called h |}.

Definition hook_get (props : option Query) (h : Hook) : result answer * Hook :=
  (get props (store h), h).

(** The operations a client of the hook can perform. *)
Inductive op : Type :=
  | OpGet (props : option Query)
  | OpSet (value : Update)
  | OpSubscribe (cb : callback)
  | OpUnsubscribe (cb : callback).

Definition step (o : op) (h : Hook) : Hook :=
  match o with
  | OpGet props => snd (hook_get props h)
  | OpSet value => hook_set value h
  | OpSubscribe cb => snd (subscribe cb h)
  | OpUnsubscribe cb => snd (unsubscribe cb h)
  end.

(** Run a sequence of operations, first to last. *)
Definition run (ops : list op) (h : Hook) : Hook :=
  fold_left (λ h o, step o h) ops h.

(** The store states a running program can hold: the initial one and those
    [set] makes from them. *)
Inductive reachable : Store → Prop :=
  | reachable_initial : reachable initial
  | reachable_set value s : reachable s → reachable (set value s).

(** Point lookups in the two indexes. *)
Definition channel_entry (s : Store) (channel cc : Z) : option Z :=
  byChannel s !! channel ≫= (λ m : gmap Z Z, m !! cc).

Definition device_entry (s : Store) (id : string) (channel cc : Z) : option Z :=
  match byDevice s !! id with
  | Some d => d !! channel ≫= (λ m : gmap Z Z, m !! cc)
  | None => None
  end.

(** The two indexes describe the same writes: a (channel, cc) pair has a
    value in [byChannel] exactly when some device has one for it in
    [byDevice], and the value [byChannel] holds is the value of one of the
    devices. *)
Definition indexes_agree (s : Store) : Prop :=
  ∀ channel cc,
    (is_Some (channel_entry s channel cc) ↔ ∃ id, is_Some (device_entry s id channel cc))
    ∧ (∀ v, channel_entry s channel cc = Some v → ∃ id, device_entry s id channel cc = Some v).

End useStoreData.

(** ** The device registries: the [reducer] of [MIDIProvider] (lines
    260-269, and the same text at lines 764-773) *)

Module Registry.

(** A device handle held in a registry is a reference to an object; two
    references are the same element of a [Set] exactly when they are the
    same object. *)
Definition ref : Type := nat.

Record action : Type := {
  type : string;
  value : ref
}.

(** [new Set(iterable)]: elements in insertion order, an element equal to
    one already present is skipped.  [seen] holds the elements so far. *)
Fixpoint Set_from (seen l : list ref) : list ref :=
  match l with
  | [] => seen
  | x :: rest =>
      if bool_decide (x ∈ seen) then Set_from seen rest
      else Set_from (seen ++ [x]) rest
  end.

(** The two actions the provider dispatches. *)
Definition add (h : ref) : action := {| type := "add"; value := h |}.
Definition remove (h : ref) : action := {| type := "remove"; value := h |}.

Section reducer.

(** [item.id], read from the object a reference points to. *)
Variable id_of : ref → string.

Definition reducer (state : list ref) (a : action) : result (list ref) :=
  if String.eqb (type a) "add" then
    Ok (Set_from [] (state ++ [value a]))
  else if String.eqb (type a) "remove" then
    Ok (filter (λ item, negb (String.eqb (id_of (value a)) (id_of item)) = true) state)
  else Throw (Error "").

(** [dispatch(action)] of [useReducer]: the next state is what the reducer
    returns; a reducer that throws leaves no next state. *)
Definition dispatch (a : action) (state : list ref) : list ref :=
  match reducer state a with
  | Ok state' => state'
  | Throw _ => state
  end.

(** The entries of a registry that carry a given id. *)
Definition entries_with_id (i : string) (state : list ref) : list ref :=
  filter (λ item, id_of item = i) state.

End reducer.

End Registry.

(** ** What the provider and its helpers act on *)

Module World.

(** The platform side: every call of an output's [send], oldest first, as
    (device id, message); what [console.warn] printed; the rejections of
    promises nobody awaited. *)
Record Effects : Type := {
  sent : list (string * list Z);
  warnings : list exn;
  unhandled : list exn
}.

Definition quiet : Effects := {| sent := []; warnings := []; unhandled := [] |}.

(** [device.send(msg)] *)
Definition send (device : MIDIOutput) (msg : list Z) (w : Effects) : result unit * Effects :=
  let w' := {| sent := sent w ++ [(port_id (out_port device), msg)];
               warnings := warnings w; unhandled := unhandled w |} in
  match send_raises device msg with
  | Some e => (Throw e, w')
  | None => (Ok tt, w')
  end.

Definition warn (e : exn) (w : Effects) : Effects :=
  {| sent := sent w; warnings := warnings w ++ [e]; unhandled := unhandled w |}.

Definition drop_rejection {A} (p : promise A) (w : Effects) : Effects :=
  match p with
  | Fulfilled _ => w
  | Rejected e => {| sent := sent w; warnings := warnings w; unhandled := unhandled w ++ [e] |}
  end.

(** [`${msg}`] for an array of numbers: the elements joined by commas. *)
Definition show_array (msg : list Z) : string := String.concat "," (pretty <$> msg).

(** [`${x}`] for an optional number. *)
Definition show (x : option Z) : string :=
  match x with
  | Some n => pretty n
  | None => "undefined"
  end.

(** The state of a mounted [MIDIProvider]: [midiAccess] ([None] while the
    platform has not granted access: [{}] in the older revision, [null] in
    the newer one, neither of which has an [inputs] property), the two
    registries, [store.current] of [useStoreData], the objects the input
    references point to, and the platform. *)
Record Provider : Type := {
  midiAccess : option (list Registry.ref * list Registry.ref);
  connectedMIDIInputs : list Registry.ref;
  connectedMIDIOutputs : list Registry.ref;
  values : useStoreData.Store;
  heap : Registry.ref → MIDIInput;
  effects : Effects
}.

Definition with_effects (w : Effects) (p : Provider) : Provider :=
  {| midiAccess := midiAccess p; connectedMIDIInputs := connectedMIDIInputs p;
     connectedMIDIOutputs := connectedMIDIOutputs p; values := values p;
     heap := heap p; effects := w |}.

Definition with_values (s : useStoreData.Store) (p : Provider) : Provider :=
  {| midiAccess := midiAccess p; connectedMIDIInputs := connectedMIDIInputs p;
     connectedMIDIOutputs := connectedMIDIOutputs p; values := s;
     heap := heap p; effects := effects p |}.

Definition with_heap (h : Registry.ref → MIDIInput) (p : Provider) : Provider :=
  {| midiAccess := midiAccess p; connectedMIDIInputs := connectedMIDIInputs p;
     connectedMIDIOutputs := connectedMIDIOutputs p; values := values p;
     heap := h; effects := effects p |}.

Definition with_inputs (l : list Registry.ref) (p : Provider) : Provider :=
  {| midiAccess := midiAccess p; connectedMIDIInputs := l;
     connectedMIDIOutputs := connectedMIDIOutputs p; values := values p;
     heap := heap p; effects := effects p |}.

(** [item.id] for an input reference. *)
Definition input_id (h : Registry.ref → MIDIInput) (r : Registry.ref) : string :=
  port_id (in_port (h r)).

(** [input.onmidimessage = f] *)
Definition assign_handler (f : handler) (i : MIDIInput) : MIDIInput :=
  {| in_port := in_port i; onmidimessage := f; open := open i; close := close i |}.

(** [setMIDIValue], that is [set] of [useStoreData]. *)
Definition setMIDIValue (u : useStoreData.Update) (p : Provider) : Provider :=
  with_values (useStoreData.set u (values p)) p.

(** [setConnectedMIDIInputs(action)] *)
Definition setConnectedMIDIInputs (a : Registry.action) (p : Provider) : Provider :=
  with_inputs (Registry.dispatch (input_id (heap p)) a (connectedMIDIInputs p)) p.

End World.

Import World.

(** ** Arguments of the encoder and of the send facades *)

(** The argument object of [sendMIDICC], [sendMIDINoteOn] and
    [sendMIDINoteOff]: each facade destructures the fields it names and
    ignores the others.  [device] has the type of the facades' signatures,
    one output. *)
Record Args : Type := {
  a_channel : option Z;
  a_cc : option Z;
  a_pitch : option Z;
  a_value : option Z;
  a_velocity : option Z;
  a_device : option MIDIOutput
}.

(** ** The older revision (lines 1-600) *)

Module V1.

(** Lines 20-32.  The clause of ['afterTouch'] is the expression statement
    [0xA0;], without [return]. *)
Definition translateTypeToStatusByte (type : string) : Z :=
  switch
    [ ("noteOff", Return 0x80);
      ("noteOn", Return 0x90);
      ("afterTouch", ExprStmt 0xA0);
      ("cc", Return 0xB0);
      ("controlChange", Return 0xB0);
      ("programChange", Return 0xC0);
      ("channelPressure", Return 0xD0);
      ("pitchWheel", Return 0xE0) ]
    0x00 type.

(** [device?: MIDIOutput | MIDIOutput[]]; the elements of the array are
    reached through [d?.send], so they may be absent. *)
Inductive target : Type :=
  | Single (d : MIDIOutput)
  | Several (ds : list (option MIDIOutput)).

(** [MIDICommand] (lines 64-73); [log] is only tested for truthiness. *)
Record MIDICommand : Type := {
  channel : option Z;
  cc : option Z;
  value : option Z;
  velocity : option Z;
  pitch : option Z;
  device : option target;
  type : option string;
  log : bool
}.

(** The constant [msg] of [sendMIDIMessage] (lines 86-88); [type] defaults
    to ['cc'] in the destructuring. *)
Definition msg (props : MIDICommand) : list Z :=
  let firstStatusByte := translateTypeToStatusByte (nullish (type props) "cc") in
  let statusBytes := firstStatusByte + nullish (channel props) 0 in
  [statusBytes; or (pitch props) (or (cc props) 0); or (value props) 0].

(** [device.forEach((d) => d?.send(msg))]: no [try] around it, the first
    [send] that raises ends the loop. *)
Fixpoint forEach_send (ds : list (option MIDIOutput)) (m : list Z) (w : Effects)
  : result unit * Effects :=
  match ds with
  | [] => (Ok tt, w)
  | None :: rest => forEach_send rest m w
  | Some d :: rest =>
      match send d m w with
      | (Ok _, w') => forEach_send rest m w'
      | (Throw e, w') => (Throw e, w')
      end
  end.

(** [sendMIDIMessage] (lines 75-105). *)
Definition sendMIDIMessage (props : MIDICommand) (w : Effects) : result string * Effects :=
  let m := msg props in
  match device props with
  | Some (Several ds) =>
      match forEach_send ds m w with
      | (Ok _, w') => (Ok ("messages sent successfully to multiple outputs : " +:+ show_array m), w')
      | (Throw e, w') => (Throw e, w')
      end
  | Some (Single d) =>
      match send d m w with
      | (Throw e, w') => (Ok "an error occured.", if log props then warn e w' else w')
      | (Ok _, w') => (Ok ("MIDI message successfully sent : " +:+ show_array m), w')
      end
  | None => (Ok "No device specified", w)
  end.

(** [openMIDIInput] (lines 129-144).  A handle is an object, so the guard
    [typeof (input) !== 'object'] does not fire.  The promise is settled by
    [input.open()]. *)
Definition openMIDIInput (input : Registry.ref) (cb : option callback)
    (h : Registry.ref → MIDIInput) : promise Registry.ref * (Registry.ref → MIDIInput) :=
  if String.eqb (port_connection (in_port (h input))) "open" && negb (bool_decide (is_Some cb))
  then (Fulfilled input, h)
  else
    let h1 := <[ input := assign_handler PassThrough (h input) ]> h in
    let h2 := match cb with
              | Some f => <[ input := assign_handler (Wrapped f) (h1 input) ]> h1
              | None => h1
              end in
    match call_async (open (h2 input)) with
    | Ok _ => (Fulfilled input, h2)
    | Throw e => (Rejected e, h2)
    end.

(** [addMIDIInput] (lines 306-315): the promise of [openMIDIInput] is not
    awaited, so its rejection is not seen by the [catch].  The callback is
    [useCallback(..., [connectedMIDIInputs])]: the [midiAccess] it tests is
    the one of the render that built it, [seen], which is not the one the
    provider holds now when access was granted since. *)
Definition addMIDIInput (seen : option (list Registry.ref * list Registry.ref))
    (input : Registry.ref) (cb : option callback) (p : Provider)
  : bool * Provider :=
  match seen with
  | None => (false, p)
  | Some _ =>
      let '(promise, h) := openMIDIInput input cb (heap p) in
      let p1 := with_effects (drop_rejection promise (effects p)) (with_heap h p) in
      let p2 := setConnectedMIDIInputs (Registry.add input) p1 in
      (true, p2)
  end.

(** [sendMIDICC] (lines 369-383): presence is tested by truthiness. *)
Definition sendMIDICC (args : Args) (p : Provider) : result unit * Provider :=
  if negb (truthy_opt (a_channel args)) then
    (Throw (Error ("no channel provided for cc. Expected a number and received "
                   +:+ show (a_channel args))), p)
  else if negb (truthy_opt (a_cc args)) then
    (Throw (Error ("no cc# provided for cc. Expected a number and received "
                   +:+ show (a_cc args))), p)
  else match a_device args with
  | None =>
    (Throw (Error "no device provided for cc. Expected a MIDIOutputDevice and recieved undefined"), p)
  | Some d =>
  if negb (truthy_opt (a_value args)) then
    (Throw (Error ("no value provided for noteOn. Expected a number and received "
                   +:+ show (a_value args))), p)
  else
    match sendMIDIMessage
            {| channel := a_channel args; cc := a_cc args; value := a_value args;
               velocity := None; pitch := None; device := Some (Single d);
               type := Some "cc"; log := false |} (effects p) with
    | (Throw e, w) => (Throw e, with_effects w p)
    | (Ok _, w) =>
        (Ok tt,
         setMIDIValue
           {| useStoreData.u_channel := nullish (a_channel args) 0;
              useStoreData.u_cc := nullish (a_cc args) 0;
              useStoreData.u_value := nullish (a_value args) 0;
              useStoreData.u_device := out_port d |}
           (with_effects w p))
    end
  end.

(** [sendMIDINoteOn] (lines 394-405). *)
Definition sendMIDINoteOn (args : Args) (p : Provider) : result unit * Provider :=
  if negb (truthy_opt (a_channel args)) then
    (Throw (Error ("no channel provided for noteOn. Expected a number and received "
                   +:+ show (a_channel args))), p)
  else if negb (truthy_opt (a_pitch args)) then
    (Throw (Error ("no pitch provided for noteOn. Expected a number and received "
                   +:+ show (a_pitch args))), p)
  else match a_device args with
  | None =>
    (Throw (Error "no device provided for noteOn. Expected a MIDIOutputDevice and recieved undefined"), p)
  | Some d =>
  if negb (truthy_opt (or_opt (a_velocity args) (a_value args))) then
    (Throw (Error ("no value/velocity provided for noteOn. Expected a number and received "
                   +:+ show (nullish_opt (a_velocity args) (a_value args)))), p)
  else
    match sendMIDIMessage
            {| channel := a_channel args; cc := None;
               value := nullish_opt (a_value args) (a_velocity args);
               velocity := None; pitch := a_pitch args; device := Some (Single d);
               type := Some "noteOn"; log := false |} (effects p) with
    | (Throw e, w) => (Throw e, with_effects w p)
    | (Ok _, w) => (Ok tt, with_effects w p)
    end
  end.

(** [sendMIDINoteOff] (lines 413-423). *)
Definition sendMIDINoteOff (args : Args) (p : Provider) : result unit * Provider :=
  if negb (truthy_opt (a_channel args)) then
    (Throw (Error ("no channel provided for noteOff. Expected a number and received "
                   +:+ show (a_channel args))), p)
  else if negb (truthy_opt (a_pitch args)) then
    (Throw (Error ("no pitch provided for noteOff. Expected a number and received "
                   +:+ show (a_pitch args))), p)
  else match a_device args with
  | None =>
    (Throw (Error "no device provided for noteOff. Expected a MIDIOutputDevice and received undefined"), p)
  | Some d =>
    match sendMIDIMessage
            {| channel := a_channel args; cc := None; value := Some 0;
               velocity := None; pitch := a_pitch args; device := Some (Single d);
               type := Some "noteOff"; log := false |} (effects p) with
    | (Throw e, w) => (Throw e, with_effects w p)
    | (Ok _, w) => (Ok tt, with_effects w p)
    end
  end.

End V1.

(** ** The newer revision (lines 601-1073) *)

Module V2.

(** Lines 605-617. *)
Definition translateTypeToStatusByte (type : string) : Z :=
  switch
    [ ("noteOff", Return 0x80);
      ("noteOn", Return 0x90);
      ("afterTouch", Return 0xA0);
      ("cc", Return 0xB0);
      ("controlChange", Return 0xB0);
      ("programChange", Return 0xC0);
      ("channelPressure", Return 0xD0);
      ("pitchWheel", Return 0xE0) ]
    0x00 type.

(** [MIDICommand] (lines 619-628); [channel] is declared a number, and
    still read through [channel ?? 0]. *)
Record MIDICommand : Type := {
  channel : option Z;
  cc : option Z;
  value : option Z;
  velocity : option Z;
  pitch : option Z;
  device : option MIDIOutput;
  type : option string;
  log : bool
}.

(** The constant [msg] of [sendMIDIMessage] (lines 641-643). *)
Definition msg (props : MIDICommand) : list Z :=
  let firstStatusByte := translateTypeToStatusByte (nullish (type props) "cc") in
  let statusBytes := firstStatusByte + nullish (channel props) 0 in
  [statusBytes; or (pitch props) (or (cc props) 0); or (value props) 0].

(** [sendMIDIMessage] (lines 630-654). *)
Definition sendMIDIMessage (props : MIDICommand) (w : Effects) : string * Effects :=
  let m := msg props in
  match device props with
  | Some d =>
      match send d m w with
      | (Throw e, w') => ("an error occured.", if log props then warn e w' else w')
      | (Ok _, w') => ("MIDI message successfully sent : " +:+ show_array m, w')
      end
  | None => ("No device specified", w)
  end.

(** [openMIDIInput] (lines 669-684), as in the older revision. *)
Definition openMIDIInput (input : Registry.ref) (cb : option callback)
    (h : Registry.ref → MIDIInput) : promise Registry.ref * (Registry.ref → MIDIInput) :=
  if String.eqb (port_connection (in_port (h input))) "open" && negb (bool_decide (is_Some cb))
  then (Fulfilled input, h)
  else
    let h1 := <[ input := assign_handler PassThrough (h input) ]> h in
    let h2 := match cb with
              | Some f => <[ input := assign_handler (Wrapped f) (h1 input) ]> h1
              | None => h1
              end in
    match call_async (open (h2 input)) with
    | Ok _ => (Fulfilled input, h2)
    | Throw e => (Rejected e, h2)
    end.

(** [addMIDIInput] (lines 797-806): an [async] function whose promise
    always fulfils; the boolean is the value it fulfils with.
    [openMIDIInput] is awaited inside the [try]. *)
Definition addMIDIInput (input : Registry.ref) (cb : option callback) (p : Provider)
  : bool * Provider :=
  match midiAccess p with
  | None => (false, p)
  | Some _ =>
      let '(promise, h) := openMIDIInput input cb (heap p) in
      let p1 := with_heap h p in
      match await promise with
      | Throw _ => (false, p1)
      | Ok _ =>
          (true, setConnectedMIDIInputs (Registry.add input) p1)
      end
  end.

(** [sendMIDICC] (lines 837-851): presence is tested by [typeof]. *)
Definition sendMIDICC (args : Args) (p : Provider) : result unit * Provider :=
  if negb (is_number (a_channel args)) then
    (Throw (Error ("no channel provided for cc. Expected a number and received "
                   +:+ show (a_channel args))), p)
  else if negb (is_number (a_cc args)) then
    (Throw (Error ("no cc# provided for cc. Expected a number and received "
                   +:+ show (a_cc args))), p)
  else if negb (is_number (a_value args)) then
    (Throw (Error ("no value provided for cc. Expected a number and received "
                   +:+ show (a_value args))), p)
  else match a_device args with
  | None =>
    (Throw (Error "no device provided for cc. Expected a MIDIOutputDevice and recieved undefined"), p)
  | Some d =>
    let '(_, w) :=
      sendMIDIMessage
        {| channel := a_channel args; cc := a_cc args; value := a_value args;
           velocity := None; pitch := None; device := Some d;
           type := Some "cc"; log := false |} (effects p) in
    (Ok tt,
     setMIDIValue
       {| useStoreData.u_channel := nullish (a_channel args) 0;
          useStoreData.u_cc := nullish (a_cc args) 0;
          useStoreData.u_value := nullish (a_value args) 0;
          useStoreData.u_device := out_port d |}
       (with_effects w p))
  end.

(** [sendMIDINoteOn] (lines 853-864). *)
Definition sendMIDINoteOn (args : Args) (p : Provider) : result unit * Provider :=
  if negb (is_number (a_channel args)) then
    (Throw (Error ("no channel provided for noteOn. Expected a number and received "
                   +:+ show (a_channel args))), p)
  else if negb (is_number (a_pitch args)) then
    (Throw (Error ("no pitch provided for noteOn. Expected a number and received "
                   +:+ show (a_pitch args))), p)
  else if negb (is_number (a_velocity args)) && negb (is_number (a_value args)) then
    (Throw (Error ("no value/velocity provided for noteOn. Expected a number and received "
                   +:+ show (nullish_opt (a_velocity args) (a_value args)))), p)
  else match a_device args with
  | None =>
    (Throw (Error "no device provided for noteOn. Expected a MIDIOutputDevice and recieved undefined"), p)
  | Some d =>
    let '(_, w) :=
      sendMIDIMessage
        {| channel := a_channel args; cc := None;
           value := nullish_opt (a_value args) (a_velocity args);
           velocity := None; pitch := a_pitch args; device := Some d;
           type := Some "noteOn"; log := false |} (effects p) in
    (Ok tt, with_effects w p)
  end.

(** [sendMIDINoteOff] (lines 866-876). *)
Definition sendMIDINoteOff (args : Args) (p : Provider) : result unit * Provider :=
  if negb (is_number (a_channel args)) then
    (Throw (Error ("no channel provided for noteOff. Expected a number and received "
                   +:+ show (a_channel args))), p)
  else if negb (is_number (a_pitch args)) then
    (Throw (Error ("no pitch provided for noteOff. Expected a number and received "
                   +:+ show (a_pitch args))), p)
  else match a_device args with
  | None =>
    (Throw (Error "no device provided for noteOff. Expected a MIDIOutputDevice and received undefined"), p)
  | Some d =>
    let '(_, w) :=
      sendMIDIMessage
        {| channel := a_channel args; cc := None; value := Some 0;
           velocity := None; pitch := a_pitch args; device := Some d;
           type := Some "noteOff"; log := false |} (effects p) in
    (Ok tt, with_effects w p)
  end.

End V2.

(** ** Sample devices, for the concrete runs *)

Module Samples.

Definition port (id : string) : MIDIPort :=
  {| port_id := id; port_name := id; port_connection := "closed"; port_state := "connected" |}.

(** An output whose [send] never raises. *)
Definition output (id : string) : MIDIOutput :=
  {| out_port := port id; send_raises := λ _, None |}.

(** An input that is not open and has no [open] capability. *)
Definition input_without_open (id : string) : MIDIInput :=
  {| in_port := port id; onmidimessage := NoHandler; open := Missing; close := Resolves |}.

(** An input whose connection is already ["open"], without [open]
    capability. *)
Definition open_input_without_open (id : string) : MIDIInput :=
  {| in_port := {| port_id := id; port_name := id; port_connection := "open";
                   port_state := "connected" |};
     onmidimessage := NoHandler; open := Missing; close := Resolves |}.

(** A provider to which the platform has granted access, nothing
    connected, nothing stored, nothing sent; every reference points to the
    input [mk id] for one [id]. *)
Definition granted (mk : string → MIDIInput) (id : string) : Provider :=
  {| midiAccess := Some ([], []);
     connectedMIDIInputs := [];
     connectedMIDIOutputs := [];
     values := useStoreData.initial;
     heap := λ _, mk id;
     effects := quiet |}.

(** [{channel, cc, value, device}] *)
Definition cc_args (channel cc value : Z) (d : MIDIOutput) : Args :=
  {| a_channel := Some channel; a_cc := Some cc; a_pitch := None;
     a_value := Some value; a_velocity := None; a_device := Some d |}.

(** [{channel, pitch, velocity, device}] *)
Definition note_on_args (channel pitch velocity : Z) (d : MIDIOutput) : Args :=
  {| a_channel := Some channel; a_cc := None; a_pitch := Some pitch;
     a_value := None; a_velocity := Some velocity; a_device := Some d |}.

(** [{channel, pitch, device}] *)
Definition note_off_args (channel pitch : Z) (d : MIDIOutput) : Args :=
  {| a_channel := Some channel; a_cc := None; a_pitch := Some pitch;
     a_value := None; a_velocity := None; a_device := Some d |}.

End Samples.

(** ** The documented status-byte table *)

(** The table as the specification words it (section 4.1). *)
Definition documented (type : string) : Z :=
  if decide (type = "noteOff") then 0x80
  else if decide (type = "noteOn") then 0x90
  else if decide (type = "afterTouch") then 0xA0
  else if decide (type = "cc") then 0xB0
  else if decide (type = "controlChange") then 0xB0
  else if decide (type = "programChange") then 0xC0
  else if decide (type = "channelPressure") then 0xD0
  else if decide (type = "pitchWheel") then 0xE0
  else 0x00.

(** ** The data bytes as the specification words them (section 4.2)

    Data byte 1 is the pitch when one is supplied (and is not 0), else the
    controller number, else 0; data byte 2 is the value, else 0. *)

Definition dataByte1 (pitch cc : option Z) : Z :=
  match pitch with
  | Some p => if decide (p = 0) then default 0 cc else p
  | None => default 0 cc
  end.

Definition dataByte2 (value : option Z) : Z := default 0 value.

(** ** Incoming messages: [onMIDIMessage] (lines 111-117, and the same
    body at lines 656-662) and the handlers [openMIDIInput] installs *)

Module Incoming.

(** A MIDI message event: [event.data] is a [Uint8Array], [event.timeStamp]
    a number that the code only passes on. *)
Record MIDIMessageEvent : Type := {
  data : list Byte.byte;
  timeStamp : Z
}.

(** What [onMIDIMessage] returns: [{ data, timeStamp, str }]. *)
Record Message : Type := {
  m_data : list Byte.byte;
  m_timeStamp : Z;
  str : string
}.

(** One hexadecimal digit of [Number.prototype.toString(16)]. *)
Definition hex_digit (n : N) : ascii :=
  match n with
  | 0%N => "0" | 1%N => "1" | 2%N => "2" | 3%N => "3"
  | 4%N => "4" | 5%N => "5" | 6%N => "6" | 7%N => "7"
  | 8%N => "8" | 9%N => "9" | 10%N => "a" | 11%N => "b"
  | 12%N => "c" | 13%N => "d" | 14%N => "e" | _ => "f"
  end%char.

(** [x.toString(16)] for an element of a [Uint8Array]: one digit below 16,
    two digits from 16 to 255, no padding. *)
Definition toString16 (b : Byte.byte) : string :=
  let n := Byte.to_N b in
  if (n <? 16)%N then String (hex_digit n) ""
  else String (hex_digit (n / 16)) (String (hex_digit (n mod 16)) "").

(** [onMIDIMessage]: the loop appends [`0x${event.data[i].toString(16)} `]
    for each byte, first to last. *)
Definition onMIDIMessage (event : MIDIMessageEvent) : Message :=
  {| m_data := data event;
     m_timeStamp := timeStamp event;
     str := fold_left (λ str b, str +:+ ("0x" +:+ (toString16 b +:+ " "))) (data event) "" |}.

(** The argument the wrapper of [openMIDIInput] gives to the caller's
    callback: [{ relVal: 'mostRecentMessage', input: message }]. *)
Record StateObj : Type := {
  relVal : string;
  input : Message
}.

(** [input.onmidimessage(msg)], as the platform calls it on the arrival of
    a message: the calls of callbacks it makes.  The pass-through handler
    decodes the message and returns it to the platform, calling nobody; the
    wrapper (lines 135-139) calls the callback once. *)
Definition deliver (f : handler) (msg : MIDIMessageEvent) : list (callback * StateObj) :=
  match f with
  | NoHandler => []
  | PassThrough => []
  | Wrapped cb => [(cb, {| relVal := "mostRecentMessage"; input := onMIDIMessage msg |})]
  end.

(** A reader of the text [onMIDIMessage] writes: the bytes of the leading
    well-formed tokens. *)
Definition of_hex_digit (c : ascii) : option N :=
  (if Ascii.eqb c "0" then Some 0 else if Ascii.eqb c "1" then Some 1
   else if Ascii.eqb c "2" then Some 2 else if Ascii.eqb c "3" then Some 3
   else if Ascii.eqb c "4" then Some 4 else if Ascii.eqb c "5" then Some 5
   else if Ascii.eqb c "6" then Some 6 else if Ascii.eqb c "7" then Some 7
   else if Ascii.eqb c "8" then Some 8 else if Ascii.eqb c "9" then Some 9
   else if Ascii.eqb c "a" then Some 10 else if Ascii.eqb c "b" then Some 11
   else if Ascii.eqb c "c" then Some 12 else if Ascii.eqb c "d" then Some 13
   else if Ascii.eqb c "e" then Some 14 else if Ascii.eqb c "f" then Some 15
   else None)%N%char.

Fixpoint read (s : string) : list Byte.byte :=
  match s with
  | String "0" (String "x" (String a (String " " rest))) =>
      match of_hex_digit a with
      | Some n => match Byte.of_N n with Some b => b :: read rest | None => [] end
      | None => []
      end
  | String "0" (String "x" (String a (String b (String " " rest)))) =>
      match of_hex_digit a, of_hex_digit b with
      | Some h, Some l =>
          match Byte.of_N (16 * h + l) with Some x => x :: read rest | None => [] end
      | _, _ => []
      end
  | _ => []
  end%char.

End Incoming.

(** ** The registry operations of [MIDIProvider] that read nothing of the
    provider's state, the same in both revisions: [closeMIDIInput] (lines
    151-154, 691-694), [removeMIDIInput] (lines 322-330, 808-816),
    [removeMIDIOutput] (lines 352-359, 828-835) *)

Module Shared.

(** [closeMIDIInput]: the promise is settled by [input.close()]. *)
Definition closeMIDIInput (input : Registry.ref) (h : Registry.ref → MIDIInput)
  : promise Registry.ref :=
  match call_async (close (h input)) with
  | Ok _ => Fulfilled input
  | Throw e => Rejected e
  end.

(** [removeMIDIInput]: the promise of [closeMIDIInput] is not awaited; the
    [try] holds nothing that throws. *)
Definition removeMIDIInput (input : Registry.ref) (p : Provider) : bool * Provider :=
  let promise := closeMIDIInput input (heap p) in
  let p1 := with_effects (drop_rejection promise (effects p)) p in
  (true, setConnectedMIDIInputs (Registry.remove input) p1).

Definition with_outputs (l : list Registry.ref) (p : Provider) : Provider :=
  {| midiAccess := midiAccess p; connectedMIDIInputs := connectedMIDIInputs p;
     connectedMIDIOutputs := l; values := values p;
     heap := heap p; effects := effects p |}.

Section outputs.

(** The objects the output references point to. *)
Variable outputs : Registry.ref → MIDIOutput.

Definition output_id (r : Registry.ref) : string := port_id (out_port (outputs r)).

(** [setConnectedMIDIOutputs(action)] *)
Definition setConnectedMIDIOutputs (a : Registry.action) (p : Provider) : Provider :=
  with_outputs (Registry.dispatch output_id a (connectedMIDIOutputs p)) p.

(** [removeMIDIOutput] *)
Definition removeMIDIOutput (output : Registry.ref) (p : Provider) : bool * Provider :=
  (true, setConnectedMIDIOutputs (Registry.remove output) p).

End outputs.

End Shared.

(** ** [addMIDIOutput] of the newer revision (lines 818-826): the callback
    is rebuilt whenever [midiAccess] changes, so it tests the [midiAccess]
    the provider holds *)

Module V2_provider.

Definition addMIDIOutput (outputs : Registry.ref → MIDIOutput) (output : Registry.ref)
    (p : Provider) : bool * Provider :=
  match midiAccess p with
  | None => (false, p)
  | Some _ => (true, Shared.setConnectedMIDIOutputs outputs (Registry.add output) p)
  end.

End V2_provider.

(** ** Session bootstrap: [initializeMIDI] (lines 287-299 in the older
    revision, lines 785-795 in the newer one) *)

Module Session.

(** The access object of the platform: [inputs] and [outputs] are maps
    from id to port, iterated in insertion order as [[id, port]] pairs. *)
Record MIDIAccess : Type := {
  inputs : list (string * Registry.ref);
  outputs : list (string * Registry.ref)
}.

(** [navigator]: without [requestMIDIAccess], or with one whose promise the
    platform fulfils with an access object or rejects. *)
Inductive navigator : Type :=
  | Unsupported
  | Supported (answer : promise MIDIAccess).

(** The provider together with the two lists [midiInputs] and
    [midiOutputs] of [useState], and the calls of [onError], oldest
    first. *)
Record State : Type := {
  provider : Provider;
  midiInputs : list Registry.ref;
  midiOutputs : list Registry.ref;
  reported : list (callback * exn)
}.

Definition with_access (a : option (list Registry.ref * list Registry.ref)) (p : Provider)
  : Provider :=
  {| midiAccess := a; connectedMIDIInputs := connectedMIDIInputs p;
     connectedMIDIOutputs := connectedMIDIOutputs p; values := values p;
     heap := heap p; effects := effects p |}.

(** The state of a provider that has just been mounted. *)
Definition mounted (h : Registry.ref → MIDIInput) : State :=
  {| provider :=
       {| midiAccess := None; connectedMIDIInputs := []; connectedMIDIOutputs := [];
          values := useStoreData.initial; heap := h; effects := quiet |};
     midiInputs := []; midiOutputs := []; reported := [] |}.

(** The three setters: [setMIDIAccess], then [setMIDIInputs] and
    [setMIDIOutputs] with [[...access.inputs].map((input) => input[1])]. *)
Definition grant (a : MIDIAccess) (st : State) : State :=
  {| provider := with_access (Some (snd <$> inputs a, snd <$> outputs a)) (provider st);
     midiInputs := snd <$> inputs a;
     midiOutputs := snd <$> outputs a;
     reported := reported st |}.

(** The older [initializeMIDI]: it resolves with the [midiAccess],
    [midiInputs] and [midiOutputs] its closure holds, which are those of
    the state it was called in. *)
Definition V1_initializeMIDI (nav : navigator) (st : State)
  : promise (option (list Registry.ref * list Registry.ref)
             * list Registry.ref * list Registry.ref) * State :=
  match nav with
  | Unsupported => (Rejected (Error "MIDI is not supported in this browser."), st)
  | Supported (Rejected e) => (Rejected e, st)
  | Supported (Fulfilled a) =>
      (Fulfilled (midiAccess (provider st), midiInputs st, midiOutputs st), grant a st)
  end.

(** [onError(error)] in the [catch] of the newer [initializeMIDI];
    [onError] is [None] when the caller passed none, and calling it then is
    a [TypeError] that rejects the promise. *)
Definition report (onError : option callback) (e : exn) (st : State) : promise unit * State :=
  match onError with
  | Some f =>
      (Fulfilled tt,
       {| provider := provider st; midiInputs := midiInputs st;
          midiOutputs := midiOutputs st; reported := reported st ++ [(f, e)] |})
  | None => (Rejected TypeError, st)
  end.

(** The newer [initializeMIDI]. *)
Definition V2_initializeMIDI (onError : option callback) (nav : navigator) (st : State)
  : promise unit * State :=
  match nav with
  | Unsupported => report onError (Error "MIDI is not supported in this browser.") st
  | Supported (Rejected e) => report onError e st
  | Supported (Fulfilled a) => (Fulfilled tt, grant a st)
  end.

End Session.

(** ** The older [MIDIProvider] from render to render

    [addMIDIInput] is memoised on [[connectedMIDIInputs]] (line 315) and
    [addMIDIOutput] on [[connectedMIDIOutputs]] (line 345): each is built
    again only in a render in which its registry is a new array, and until
    then it tests the [midiAccess] of the render that built it.  Every
    dispatch assigns a new array ([[...new Set(...)]] or [filter]), and the
    render that follows builds the callbacks of that registry again. *)

Module V1_provider.

Record Rendered : Type := {
  now : Provider;
  inputs_see : option (list Registry.ref * list Registry.ref);
  outputs_see : option (list Registry.ref * list Registry.ref)
}.

(** The first render: [midiAccess] is [{}]. *)
Definition mount (h : Registry.ref → MIDIInput) : Rendered :=
  {| now := Session.provider (Session.mounted h); inputs_see := None; outputs_see := None |}.

(** [setMIDIAccess(() => access)] in [initializeMIDI]: in the render that
    follows neither registry is a new array. *)
Definition setMIDIAccess (a : list Registry.ref * list Registry.ref) (r : Rendered)
  : Rendered :=
  {| now := Session.with_access (Some a) (now r);
     inputs_see := inputs_see r; outputs_see := outputs_see r |}.

(** A call of the memoised [addMIDIInput]; it dispatches exactly when it
    answers [true]. *)
Definition addMIDIInput (input : Registry.ref) (cb : option callback) (r : Rendered)
  : bool * Rendered :=
  let '(answer, p) := V1.addMIDIInput (inputs_see r) input cb (now r) in
  (answer,
   {| now := p;
      inputs_see := if answer then midiAccess p else inputs_see r;
      outputs_see := outputs_see r |}).

(** A call of [removeMIDIInput] (lines 322-330), which always dispatches. *)
Definition removeMIDIInput (input : Registry.ref) (r : Rendered) : bool * Rendered :=
  let '(answer, p) := Shared.removeMIDIInput input (now r) in
  (answer, {| now := p; inputs_see := midiAccess p; outputs_see := outputs_see r |}).

(** A call of the memoised [addMIDIOutput] (lines 337-345). *)
Definition addMIDIOutput (outputs : Registry.ref → MIDIOutput) (output : Registry.ref)
    (r : Rendered) : bool * Rendered :=
  match outputs_see r with
  | None => (false, r)
  | Some _ =>
      let p := Shared.setConnectedMIDIOutputs outputs (Registry.add output) (now r) in
      (true, {| now := p; inputs_see := inputs_see r; outputs_see := midiAccess p |})
  end.

(** A call of [removeMIDIOutput] (lines 352-359), which always dispatches. *)
Definition removeMIDIOutput (outputs : Registry.ref → MIDIOutput) (output : Registry.ref)
    (r : Rendered) : bool * Rendered :=
  let '(answer, p) := Shared.removeMIDIOutput outputs output (now r) in
  (answer, {| now := p; inputs_see := inputs_see r; outputs_see := midiAccess p |}).

End V1_provider.

(** ** The accessor hooks of the newer revision (lines 931-1067) *)

Module V2_hooks.

(** The two refs of [useMIDIContext]; a selected value is an object, known
    by its identity, or [undefined]. *)
Record Refs : Type := {
  latestSelectedStateRef : option nat;
  latestSelectedResultRef : option nat
}.

(** [useRef<R>()] twice. *)
Definition fresh : Refs :=
  {| latestSelectedStateRef := None; latestSelectedResultRef := None |}.

(** [useMIDIContext] (lines 931-944). *)
Definition useMIDIContext {C} (selector : C → option nat) (valueFromContext : C) (r : Refs)
  : option nat * Refs :=
  let selectedState := selector valueFromContext in
  let r' :=
    if bool_decide (selectedState ≠ latestSelectedStateRef r)
    then {| latestSelectedStateRef := selectedState; latestSelectedResultRef := selectedState |}
    else r in
  (latestSelectedResultRef r', r').

(** [requestedDevice: number | string] *)
Inductive requested : Type :=
  | ByIndex (n : Z)
  | ByName (name : string).

(** [typeof requestedDevice == 'number' ? list[requestedDevice] :
    list.filter((device) => device.name === requestedDevice)[0]]; an index
    that is negative or past the end gives [undefined]. *)
Definition pick {A} (name_of : A → string) (r : requested) (l : list A) : option A :=
  match r with
  | ByIndex n => if decide (0 ≤ n) then l !! Z.to_nat n else None
  | ByName s => head (filter (λ d, name_of d = s) l)
  end.

(** [{device, ...command}]: a [device] of the command replaces the one put
    first.  ([None] stands for a command without [device] key.) *)
Definition with_device (device : MIDIOutput) (command : V2.MIDICommand) : V2.MIDICommand :=
  {| V2.channel := V2.channel command; V2.cc := V2.cc command;
     V2.value := V2.value command; V2.velocity := V2.velocity command;
     V2.pitch := V2.pitch command;
     V2.device := Some (nullish (V2.device command) device);
     V2.type := V2.type command; V2.log := V2.log command |}.

(** What a facade destructures from a command object. *)
Definition args_of (command : V2.MIDICommand) : Args :=
  {| a_channel := V2.channel command; a_cc := V2.cc command;
     a_pitch := V2.pitch command; a_value := V2.value command;
     a_velocity := V2.velocity command; a_device := V2.device command |}.

(** The context's [sendMIDIMessage], its returned string dropped. *)
Definition message (command : V2.MIDICommand) (p : Provider) : result unit * Provider :=
  (Ok tt, with_effects (snd (V2.sendMIDIMessage command (effects p))) p).

(** The object [useMIDIOutput] and [useMIDIActions] return. *)
Record Actions : Type := {
  device : option MIDIOutput;
  sendMIDICC : V2.MIDICommand → Provider → result unit * Provider;
  sendMIDIMessage : V2.MIDICommand → Provider → result unit * Provider;
  sendMIDINoteOn : V2.MIDICommand → Provider → result unit * Provider;
  sendMIDINoteOff : V2.MIDICommand → Provider → result unit * Provider
}.

(** The four wrappers [(command) => { f({device, ...command}); }]. *)
Definition bound (d : MIDIOutput) : Actions :=
  {| device := Some d;
     sendMIDICC := λ command, V2.sendMIDICC (args_of (with_device d command));
     sendMIDIMessage := λ command, message (with_device d command);
     sendMIDINoteOn := λ command, V2.sendMIDINoteOn (args_of (with_device d command));
     sendMIDINoteOff := λ command, V2.sendMIDINoteOff (args_of (with_device d command)) |}.

(** [useMIDIOutput] (lines 989-1023): without a device the four functions
    are [() => {}]. *)
Definition useMIDIOutput (r : requested) (midiOutputs : list MIDIOutput) : Actions :=
  match pick (λ d, port_name (out_port d)) r midiOutputs with
  | None =>
      {| device := None;
         sendMIDICC := λ _ p, (Ok tt, p);
         sendMIDIMessage := λ _ p, (Ok tt, p);
         sendMIDINoteOn := λ _ p, (Ok tt, p);
         sendMIDINoteOff := λ _ p, (Ok tt, p) |}
  | Some d => bound d
  end.

(** [useMIDIActions] (lines 1044-1067): without a device the functions are
    those of the context. *)
Definition useMIDIActions (d : option MIDIOutput) : Actions :=
  match d with
  | None =>
      {| device := None;
         sendMIDICC := λ command, V2.sendMIDICC (args_of command);
         sendMIDIMessage := message;
         sendMIDINoteOn := λ command, V2.sendMIDINoteOn (args_of command);
         sendMIDINoteOff := λ command, V2.sendMIDINoteOff (args_of command) |}
  | Some d => bound d
  end.

(** [useMIDIInput] (lines 1025-1042): the input, or [null]; the inputs
    whose [open] it called; the platform.  ['connection' in undefined] and
    the call of an [open] that is not a function are [TypeError]s inside
    the [try]; the promise [open] returns is not awaited. *)
Definition useMIDIInput (r : requested) (midiInputs : list Registry.ref)
    (h : Registry.ref → MIDIInput) (w : Effects)
  : option Registry.ref * list Registry.ref * Effects :=
  match pick (λ i, port_name (in_port (h i))) r midiInputs with
  | None => (None, [], w)
  | Some i =>
      if String.eqb (port_connection (in_port (h i))) "closed" then
        match open (h i) with
        | Missing => (None, [], w)
        | Resolves => (Some i, [i], w)
        | Rejects e => (Some i, [i], drop_rejection (Rejected (A:=unit) e) w)
        end
      else (Some i, [], w)
  end.

(** The argument of [useMIDI]. *)
Record Props : Type := {
  p_channel : option Z;
  p_cc : option Z;
  p_device : option MIDIOutput
}.

(** What [useMIDI] returns: [{ sendMIDIMessage: send }], or the context. *)
Inductive MIDI : Type :=
  | Sender (send : Z → Effects → Effects)
  | Context.

(** [useMIDI] (lines 973-987); [send] calls the module's [sendMIDIMessage]
    and drops its string. *)
Definition useMIDI (props : option Props) : MIDI :=
  let channel := props ≫= p_channel in
  let cc := props ≫= p_cc in
  let device := props ≫= p_device in
  if is_number channel && is_number cc then
    Sender (λ value w,
      snd (V2.sendMIDIMessage
             {| V2.channel := channel; V2.cc := cc; V2.value := Some value;
                V2.velocity := None; V2.pitch := None; V2.device := device;
                V2.type := Some "cc"; V2.log := false |} w))
  else Context.

End V2_hooks.

(** ** The nested write that [set] applies to [byChannel], and to the
    entry of the device in [byDevice]: [{...m, [channel]: {...m[channel],
    [cc]: v}}] *)

Definition put (channel cc v : Z) (m : gmap Z (gmap Z Z)) : gmap Z (gmap Z Z) :=
  <[ channel := <[ cc := v ]> (useStoreData.object_spread (m !! channel)) ]> m.

(** ** Two provider states with the same access, registries and objects *)

Definition same_registries (p p' : Provider) : Prop :=
  midiAccess p' = midiAccess p
  ∧ connectedMIDIInputs p' = connectedMIDIInputs p
  ∧ connectedMIDIOutputs p' = connectedMIDIOutputs p
  ∧ heap p' = heap p.

(** ** A set of actions without device, whose functions do nothing *)

Definition does_nothing (a : V2_hooks.Actions) : Prop :=
  V2_hooks.device a = None
  ∧ ∀ command p,
      V2_hooks.sendMIDICC a command p = (Ok tt, p)
      ∧ V2_hooks.sendMIDIMessage a command p = (Ok tt, p)
      ∧ V2_hooks.sendMIDINoteOn a command p = (Ok tt, p)
      ∧ V2_hooks.sendMIDINoteOff a command p = (Ok tt, p).

(** * Properties *)

(** ** The status-byte table *)

Section StatusByte.

Local Ltac by_cases type :=
  repeat match goal with
         | |- context [String.eqb type ?l] =>
             destruct (String.eqb_spec type l) as [->|?];
             [ first [ reflexivity | exfalso; congruence ] | ]
         end;
  repeat (case_decide; [congruence|]); reflexivity.

(** The newer revision implements the documented table on every string. *)
Lemma V2_translateTypeToStatusByte_documented type :
  V2.translateTypeToStatusByte type = documented type.
Proof.
  unfold V2.translateTypeToStatusByte, documented, switch, fall_through.
  by_cases type.
Qed.

(** The older revision agrees with it except on ["afterTouch"]. *)
Lemma V1_translateTypeToStatusByte_documented type :
  type ≠ "afterTouch" →
  V1.translateTypeToStatusByte type = documented type.
Proof.
  intros Hne.
  unfold V1.translateTypeToStatusByte, documented, switch, fall_through.
  by_cases type.
Qed.

Lemma V2_translateTypeToStatusByte_unknown type :
  type ∉ ["noteOff"; "noteOn"; "afterTouch"; "cc"; "controlChange";
          "programChange"; "channelPressure"; "pitchWheel"] →
  V2.translateTypeToStatusByte type = 0x00.
Proof.
  intros Hnot. rewrite V2_translateTypeToStatusByte_documented.
  unfold documented.
  repeat (case_decide; [exfalso; apply Hnot; subst; set_solver|]).
  reflexivity.
Qed.

(** C2.  The specification gives 0xA0 for ["afterTouch"].  In the older revision
    the clause of ["afterTouch"] has no [return], control falls into the
    clause of ["cc"], and the function returns 0xB0; on every other string
    it returns the documented byte, and the newer revision returns 0xA0. *)
Theorem translateTypeToStatusByte_afterTouch_falls_through :
  V1.translateTypeToStatusByte "afterTouch" = 0xB0
  ∧ V1.translateTypeToStatusByte "afterTouch" ≠ documented "afterTouch"
  ∧ V2.translateTypeToStatusByte "afterTouch" = 0xA0.
Proof. repeat split. vm_compute. discriminate. Qed.

End StatusByte.

(** ** The controller-value store *)

Section ValueStore.

Import useStoreData.

Implicit Types (s : Store) (u : Update) (q : Query).

Lemma object_spread_lookup {A} (x : option (gmap Z A)) (k : Z) :
  object_spread x !! k = x ≫= (λ m : gmap Z A, m !! k).
Proof. destruct x; simpl; [reflexivity | apply lookup_empty]. Qed.

(** What [set] does to a point of the [byChannel] index. *)
Lemma channel_entry_set u s channel cc :
  channel_entry (set u s) channel cc =
  if decide (channel = u_channel u ∧ cc = u_cc u) then Some (u_value u)
  else channel_entry s channel cc.
Proof.
  unfold channel_entry, set; simpl.
  destruct (decide (channel = u_channel u)) as [->|Hch].
  - rewrite lookup_insert_eq; simpl.
    destruct (decide (cc = u_cc u)) as [->|Hcc].
    + rewrite lookup_insert_eq. by rewrite decide_True.
    + rewrite lookup_insert_ne by done. rewrite object_spread_lookup.
      rewrite decide_False; [done | tauto].
  - rewrite lookup_insert_ne by done.
    rewrite decide_False; [done | tauto].
Qed.

(** What [set] does to a point of the [byDevice] index. *)
Lemma device_entry_set u s id channel cc :
  device_entry (set u s) id channel cc =
  if decide (id = port_id (u_device u) ∧ channel = u_channel u ∧ cc = u_cc u)
  then Some (u_value u)
  else device_entry s id channel cc.
Proof.
  unfold device_entry, set; simpl.
  destruct (decide (id = port_id (u_device u))) as [->|Hid].
  - rewrite lookup_insert_eq.
    destruct (decide (channel = u_channel u)) as [->|Hch].
    + rewrite lookup_insert_eq; simpl.
      destruct (decide (cc = u_cc u)) as [->|Hcc].
      * rewrite lookup_insert_eq. by rewrite decide_True.
      * rewrite lookup_insert_ne by done. rewrite object_spread_lookup.
        rewrite decide_False by tauto.
        by destruct (byDevice s !! port_id (u_device u)).
    + rewrite lookup_insert_ne by done. rewrite object_spread_lookup.
      rewrite decide_False by tauto.
      by destruct (byDevice s !! port_id (u_device u)).
  - rewrite lookup_insert_ne by done.
    rewrite decide_False; [done | tauto].
Qed.

Lemma channel_entry_initial channel cc : channel_entry initial channel cc = None.
Proof. unfold channel_entry, initial; simpl. by rewrite lookup_empty. Qed.

Lemma device_entry_initial id channel cc : device_entry initial id channel cc = None.
Proof. unfold device_entry, initial; simpl. by rewrite lookup_empty. Qed.

Lemma indexes_agree_initial : indexes_agree initial.
Proof.
  intros channel cc. rewrite channel_entry_initial. split.
  - split.
    + intros [? ?]; discriminate.
    + intros [id [? Hid]]. rewrite device_entry_initial in Hid. discriminate.
  - intros ? ?; discriminate.
Qed.

Lemma indexes_agree_set u s : indexes_agree s → indexes_agree (set u s).
Proof.
  intros Hs channel cc. destruct (Hs channel cc) as [Hiff Hval].
  rewrite channel_entry_set.
  destruct (decide (channel = u_channel u ∧ cc = u_cc u)) as [[-> ->]|Hne].
  - split.
    + split; [intros _ | by eauto].
      exists (port_id (u_device u)). rewrite device_entry_set, decide_True; eauto.
    + intros v [= <-]. exists (port_id (u_device u)).
      rewrite device_entry_set, decide_True; eauto.
  - assert (Hdev : ∀ id, device_entry (set u s) id channel cc = device_entry s id channel cc).
    { intros id. rewrite device_entry_set. apply decide_False. tauto. }
    split.
    + rewrite Hiff. by setoid_rewrite Hdev.
    + intros v Hv. destruct (Hval v Hv) as [id Hid]. exists id. by rewrite Hdev.
Qed.

Lemma indexes_agree_reachable s : reachable s → indexes_agree s.
Proof.
  induction 1 as [|u s _ IH]; [apply indexes_agree_initial | by apply indexes_agree_set].
Qed.


(** After [set], a query by a truthy channel and a truthy controller number
    gives the value just written. *)
Lemma get_after_set u s :
  u_channel u ≠ 0 → u_cc u ≠ 0 →
  get (Some {| q_channel := Some (u_channel u); q_cc := Some (u_cc u); q_device := None |})
      (set u s)
  = Ok (Value (Some (u_value u))).
Proof.
  intros Hch Hcc. unfold get; simpl. unfold truthy.
  destruct (Z.eqb_spec (u_channel u) 0) as [?|_]; [done|].
  destruct (Z.eqb_spec (u_cc u) 0) as [?|_]; [done|]. simpl.
  by rewrite !lookup_insert_eq.
Qed.

(** A query that names a device raises, whatever the store holds: the
    entry of the device is [undefined] or a plain object, never an array. *)
Lemma get_by_device_raises s channel cc port :
  get (Some {| q_channel := channel; q_cc := cc; q_device := Some port |}) s
  = Throw TypeError.
Proof. unfold get, byDevice_at; simpl. by destruct (byDevice s !! port_id port). Qed.

(** A channel that was never written, asked for alone. *)
Lemma get_channel_never_written s channel :
  channel ≠ 0 → byChannel s !! channel = None →
  get (Some {| q_channel := Some channel; q_cc := None; q_device := None |}) s
  = Ok (ChannelValues None).
Proof.
  intros Hch Hnone. unfold get; simpl. unfold truthy.
  destruct (Z.eqb_spec channel 0) as [?|_]; [done|]. simpl. by rewrite Hnone.
Qed.

(** A controller number that was never written on a channel that was. *)
Lemma get_cc_never_written s channel cc m :
  channel ≠ 0 → cc ≠ 0 → byChannel s !! channel = Some m → m !! cc = None →
  get (Some {| q_channel := Some channel; q_cc := Some cc; q_device := None |}) s
  = Ok (Value None).
Proof.
  intros Hch Hcc Hm Hnone. unfold get; simpl. unfold truthy.
  destruct (Z.eqb_spec channel 0) as [?|_]; [done|].
  destruct (Z.eqb_spec cc 0) as [?|_]; [done|]. simpl. by rewrite Hm, Hnone.
Qed.

(** A controller number asked for on a channel that was never written. *)
Lemma get_cc_of_channel_never_written s channel cc :
  channel ≠ 0 → cc ≠ 0 → byChannel s !! channel = None →
  get (Some {| q_channel := Some channel; q_cc := Some cc; q_device := None |}) s
  = Throw TypeError.
Proof.
  intros Hch Hcc Hnone. unfold get; simpl. unfold truthy.
  destruct (Z.eqb_spec channel 0) as [?|_]; [done|].
  destruct (Z.eqb_spec cc 0) as [?|_]; [done|]. simpl. by rewrite Hnone.
Qed.

(** C3.  The specification promises that after [set] of (device, ch, cc, v) the
    query by device contains the record of cc and v, and that the query by
    (ch, cc) gives v.  The query by device raises a [TypeError] for every
    store and every selector, here right after the [set] for that very
    device; and after a [set] on channel 0 the query by (0, 64) gives the
    whole store, not the value. *)
Theorem get_by_device_after_set_raises :
  (∀ u s channel cc,
     get (Some {| q_channel := channel; q_cc := cc; q_device := Some (u_device u) |}) (set u s)
     = Throw TypeError)
  ∧ get (Some {| q_channel := Some 1; q_cc := None; q_device := Some (Samples.port "out1") |})
        (set {| u_channel := 1; u_cc := 64; u_value := 100; u_device := Samples.port "out1" |}
             initial)
    = Throw TypeError
  ∧ (let written :=
       set {| u_channel := 0; u_cc := 64; u_value := 100; u_device := Samples.port "out1" |}
           initial in
     get (Some {| q_channel := Some 0; q_cc := Some 64; q_device := None |}) written
     = Ok (WholeStore written)).
Proof.
  split; [intros; apply get_by_device_raises|].
  split; [apply get_by_device_raises | reflexivity].
Qed.

(** C4.  In every reachable store and after every [set] on it: the two
    indexes hold the value just written at the written place, they agree
    with each other (no place is present in one and absent from the
    other), and a later [set] on the same channel and controller number,
    from any device, replaces the [byChannel] value while the [byDevice]
    value of another device stays. *)
Theorem set_updates_both_indexes s u :
  reachable s →
  channel_entry (set u s) (u_channel u) (u_cc u) = Some (u_value u)
  ∧ device_entry (set u s) (port_id (u_device u)) (u_channel u) (u_cc u) = Some (u_value u)
  ∧ indexes_agree s
  ∧ indexes_agree (set u s)
  ∧ ∀ u2, u_channel u2 = u_channel u → u_cc u2 = u_cc u →
      channel_entry (set u2 (set u s)) (u_channel u) (u_cc u) = Some (u_value u2)
      ∧ (port_id (u_device u2) ≠ port_id (u_device u) →
         device_entry (set u2 (set u s)) (port_id (u_device u)) (u_channel u) (u_cc u)
         = Some (u_value u)).
Proof.
  intros Hs. split; [|split; [|split; [|split]]].
  - rewrite channel_entry_set. by rewrite decide_True.
  - rewrite device_entry_set. by rewrite decide_True.
  - by apply indexes_agree_reachable.
  - by apply indexes_agree_set, indexes_agree_reachable.
  - intros u2 Hch Hcc. split.
    + rewrite channel_entry_set. by rewrite decide_True.
    + intros Hid. rewrite device_entry_set, decide_False by (intros [? _]; congruence).
      rewrite device_entry_set. by rewrite decide_True.
Qed.

(** C6.  The specification promises an empty or undefined answer, without error,
    for what was never written.  On the fresh store the query by channel 1
    and controller 64 raises a [TypeError], and so does every query that
    names a device. *)
Theorem get_never_written_raises :
  get (Some {| q_channel := Some 1; q_cc := Some 64; q_device := None |}) initial
  = Throw TypeError
  ∧ ∀ s port channel cc,
      get (Some {| q_channel := channel; q_cc := cc; q_device := Some port |}) s
      = Throw TypeError.
Proof. split; [reflexivity | intros; apply get_by_device_raises]. Qed.

(** C10.  A selector equal to 0 is treated as an absent one: with channel
    0 and no device [get] gives the whole store; with controller number 0
    it gives what it gives without controller number, the whole map of a
    channel that is not 0; in a query by device the selectors 0 are not
    used by the filter. *)
Theorem get_zero_selector_is_absent s :
  (∀ cc, get (Some {| q_channel := Some 0; q_cc := cc; q_device := None |}) s
         = Ok (WholeStore s))
  ∧ (∀ channel,
       get (Some {| q_channel := channel; q_cc := Some 0; q_device := None |}) s
       = get (Some {| q_channel := channel; q_cc := None; q_device := None |}) s)
  ∧ (∀ channel, channel ≠ 0 →
       get (Some {| q_channel := Some channel; q_cc := Some 0; q_device := None |}) s
       = Ok (ChannelValues (byChannel s !! channel)))
  ∧ (∀ port cc,
       get (Some {| q_channel := Some 0; q_cc := cc; q_device := Some port |}) s
       = get (Some {| q_channel := None; q_cc := cc; q_device := Some port |}) s)
  ∧ (∀ port channel,
       get (Some {| q_channel := channel; q_cc := Some 0; q_device := Some port |}) s
       = get (Some {| q_channel := channel; q_cc := None; q_device := Some port |}) s)
  ∧ (∀ cc record, keep (Some 0) cc record = keep None cc record)
  ∧ (∀ channel record, keep channel (Some 0) record = keep channel None record)
  ∧ (∀ record, keep (Some 0) (Some 0) record = true).
Proof.
  split; [done|]. split.
  { intros [channel|]; [|done]. unfold get; simpl. by destruct (truthy channel). }
  split.
  { intros channel Hch. unfold get; simpl. unfold truthy.
    by destruct (Z.eqb_spec channel 0). }
  split; [intros; by rewrite !get_by_device_raises|].
  split; [intros; by rewrite !get_by_device_raises|].
  split; [done|]. split; [|done].
  intros channel record. unfold keep; simpl.
  by destruct (truthy_opt channel && _).
Qed.

(** A witness of C4: the first write to a fresh store. *)
Lemma set_updates_both_indexes_witness :
  channel_entry
    (set {| u_channel := 1; u_cc := 64; u_value := 100; u_device := Samples.port "out1" |}
         initial) 1 64
  = Some 100.
Proof.
  exact (proj1 (set_updates_both_indexes initial
                  {| u_channel := 1; u_cc := 64; u_value := 100;
                     u_device := Samples.port "out1" |}
                  reachable_initial)).
Defined.

(** A witness of C10: controller number 0 asked on channel 1. *)
Lemma get_zero_selector_is_absent_witness :
  get (Some {| q_channel := Some 1; q_cc := Some 0; q_device := None |}) initial
  = Ok (ChannelValues (byChannel initial !! 1)).
Proof.
  apply (get_zero_selector_is_absent initial). lia.
Defined.

(** The subscriber set and the call log are untouched by every operation
    but [subscribe] and the closure it returns, which touch the set only. *)
Lemma step_called o h : called (step o h) = called h.
Proof. by destruct o. Qed.

Lemma run_called ops h : called (run ops h) = called h.
Proof.
  revert h. induction ops as [|o ops IH]; intros h; [done|].
  unfold run in *; simpl. by rewrite IH, step_called.
Qed.

(** C9.  [subscribe] puts the callback in the subscriber set and returns a
    function that, called on any later state of the hook, takes it out and
    leaves the other callbacks in; [set] neither changes the subscriber
    set nor calls a callback, and after any sequence of operations on the
    mounted hook no subscriber callback has been called. *)
Theorem subscribe_registers_and_set_never_notifies :
  (∀ cb h, cb ∈ subscribers (snd (subscribe cb h)))
  ∧ (∀ cb h h',
       let unsubscribe := fst (subscribe cb h) in
       (cb ∉ subscribers (snd (unsubscribe h')))
       ∧ (∀ cb', cb' ≠ cb →
            ((cb' ∈ subscribers (snd (unsubscribe h'))) ↔ (cb' ∈ subscribers h'))))
  ∧ (∀ u h, subscribers (hook_set u h) = subscribers h
            ∧ called (hook_set u h) = called h)
  ∧ (∀ ops, called (run ops mount) = []).
Proof.
  split; [|split; [|split]].
  - intros cb h. simpl. apply elem_of_union_l, elem_of_singleton. reflexivity.
  - intros cb h h'. simpl. split.
    + rewrite elem_of_difference, elem_of_singleton. tauto.
    + intros cb' Hne. rewrite elem_of_difference, elem_of_singleton. tauto.
  - done.
  - intros ops. by rewrite run_called.
Qed.

(** A witness of C9: callback 2 stays registered when callback 1 is
    unsubscribed. *)
Lemma subscribe_registers_and_set_never_notifies_witness :
  2%nat ∈ subscribers (snd (fst (subscribe 1%nat mount) (snd (subscribe 2%nat mount))))
  ↔ 2%nat ∈ subscribers (snd (subscribe 2%nat mount)).
Proof.
  apply (proj2 (proj1 (proj2 subscribe_registers_and_set_never_notifies)
                  1%nat mount (snd (subscribe 2%nat mount)))).
  lia.
Defined.

(** Writing the same update twice is writing it once. *)
Lemma set_idempotent u s : set u (set u s) = set u s.
Proof.
  unfold set; simpl. f_equal.
  - rewrite !lookup_insert_eq; simpl. rewrite !lookup_insert_eq; simpl.
    by rewrite !insert_insert_eq.
  - rewrite !lookup_insert_eq; simpl. by rewrite !insert_insert_eq.
Qed.

(** The value [byChannel] holds after a run of updates is the value of the
    last update of that channel and controller number, whatever its
    device. *)
Lemma channel_entry_last_writer us s channel cc :
  channel_entry (fold_left (λ s u, set u s) us s) channel cc
  = match list_find (λ u, u_channel u = channel ∧ u_cc u = cc) (reverse us) with
    | Some (_, u) => Some (u_value u)
    | None => channel_entry s channel cc
    end.
Proof.
  induction us as [|u us IH] using rev_ind; [done|].
  rewrite fold_left_app, reverse_snoc; simpl.
  rewrite channel_entry_set.
  destruct (decide (channel = u_channel u ∧ cc = u_cc u)) as [[-> ->]|Hne].
  - by rewrite decide_True.
  - rewrite decide_False by (intros [? ?]; apply Hne; by split).
    rewrite IH. by destruct (list_find _ (reverse us)) as [[? ?]|].
Qed.

Example get_after_two_devices :
  let out1 := Samples.port "out1" in
  let out2 := Samples.port "out2" in
  let s := set {| u_channel := 1; u_cc := 64; u_value := 20; u_device := out2 |}
             (set {| u_channel := 1; u_cc := 64; u_value := 10; u_device := out1 |} initial) in
  get (Some {| q_channel := Some 1; q_cc := Some 64; q_device := None |}) s = Ok (Value (Some 20))
  ∧ device_entry s "out1" 1 64 = Some 10
  ∧ device_entry s "out2" 1 64 = Some 20.
Proof. by vm_compute. Qed.

End ValueStore.

(** ** The device registries *)

Section Registries.

Import Registry.

Implicit Types (state seen l : list ref) (h r : ref).

Lemma Set_from_elem seen l r : r ∈ Set_from seen l ↔ r ∈ seen ∨ r ∈ l.
Proof.
  revert seen. induction l as [|x l IH]; intros seen; simpl.
  - rewrite elem_of_nil. tauto.
  - case_bool_decide as Hx; rewrite IH, elem_of_cons.
    + split; [tauto|]. intros [?|[->|?]]; tauto.
    + rewrite elem_of_app, list_elem_of_singleton. tauto.
Qed.

Lemma Set_from_NoDup seen l : NoDup seen → NoDup (Set_from seen l).
Proof.
  revert seen. induction l as [|x l IH]; intros seen Hseen; simpl; [done|].
  case_bool_decide as Hx; apply IH; [done|].
  apply list.NoDup_app. split; [done|]. split; [|apply NoDup_singleton].
  intros y Hy. rewrite list_elem_of_singleton. by intros ->.
Qed.

(** A duplicate-free list whose elements are all [h] and that has [h]. *)
Lemma NoDup_all_same l h : NoDup l → (∀ r, r ∈ l → r = h) → h ∈ l → l = [h].
Proof.
  intros Hnd Hall Hin. destruct l as [|x l]; [by apply elem_of_nil in Hin|].
  assert (x = h) as -> by (apply Hall; left).
  destruct l as [|y l]; [done|].
  assert (y = h) as -> by (apply Hall; right; left).
  apply list.NoDup_cons in Hnd as [Hnot _]. exfalso. apply Hnot. left.
Qed.

(** What dispatching [add] makes of a registry. *)
Lemma dispatch_add id_of h state :
  dispatch id_of (add h) state = Set_from [] (state ++ [h]).
Proof. reflexivity. Qed.

Lemma dispatch_add_elem id_of h state r :
  r ∈ dispatch id_of (add h) state ↔ r ∈ state ∨ r = h.
Proof.
  rewrite dispatch_add, Set_from_elem, elem_of_nil, elem_of_app, list_elem_of_singleton.
  tauto.
Qed.

Lemma dispatch_add_NoDup id_of h state : NoDup (dispatch id_of (add h) state).
Proof. rewrite dispatch_add. apply Set_from_NoDup, NoDup_nil_2. Qed.

(** C7, as the specification words it, fails: two handles that are different
    objects with the same id, added to the empty registry, are both kept. *)
Lemma add_two_handles_same_id_keeps_both :
  ¬ (∀ (id_of : ref → string) state h1 h2,
       id_of h1 = id_of h2 →
       length (entries_with_id id_of (id_of h1)
                 (dispatch id_of (add h2) (dispatch id_of (add h1) state))) = 1%nat).
Proof.
  intros Hone.
  specialize (Hone (λ _, "in1") [] 1%nat 2%nat eq_refl).
  vm_compute in Hone. discriminate.
Qed.

(** C7, amended.  Adding the same handle (the same object) twice leaves
    exactly one entry for its id, in every registry in which no other
    object carries that id. *)
Theorem add_same_handle_twice_one_entry id_of state h :
  (∀ r, r ∈ state → id_of r = id_of h → r = h) →
  entries_with_id id_of (id_of h)
    (dispatch id_of (add h) (dispatch id_of (add h) state)) = [h].
Proof.
  intros Hunique. unfold entries_with_id.
  apply NoDup_all_same.
  - apply list.NoDup_filter, dispatch_add_NoDup.
  - intros r [Hid Hr]%list_elem_of_filter.
    apply dispatch_add_elem in Hr as [Hr| ->]; [|done].
    apply dispatch_add_elem in Hr as [Hr| ->]; [|done].
    by apply Hunique.
  - apply list_elem_of_filter. split; [done|].
    apply dispatch_add_elem. by right.
Qed.

Lemma add_same_handle_twice_one_entry_witness :
  entries_with_id (λ _, "in1") "in1"
    (dispatch (λ _, "in1") (add 7%nat) (dispatch (λ _, "in1") (add 7%nat) [])) = [7%nat].
Proof.
  apply (add_same_handle_twice_one_entry (λ _, "in1") [] 7%nat).
  intros r Hr. by apply elem_of_nil in Hr.
Defined.

(** Removing a handle whose id no entry carries changes nothing. *)
Lemma dispatch_remove_absent id_of h state :
  (∀ r, r ∈ state → id_of r ≠ id_of h) →
  dispatch id_of (remove h) state = state.
Proof.
  intros Habsent. unfold dispatch, reducer; simpl.
  induction state as [|x state IH]; [done|].
  rewrite filter_cons.
  destruct (String.eqb_spec (id_of h) (id_of x)) as [Heq|_]; simpl.
  - exfalso. apply (Habsent x); [left | done].
  - f_equal. apply IH. intros r Hr. apply Habsent. by right.
Qed.

(** Removing is by id: every entry with the id of the handle goes. *)
Lemma dispatch_remove_entries id_of h state :
  entries_with_id id_of (id_of h) (dispatch id_of (remove h) state) = [].
Proof.
  unfold dispatch, reducer, entries_with_id; simpl.
  induction state as [|x state IH]; [done|].
  rewrite filter_cons.
  destruct (String.eqb_spec (id_of h) (id_of x)) as [Heq|Hne]; simpl.
  - apply IH.
  - rewrite filter_cons, decide_False by done. apply IH.
Qed.

(** An action that is neither ['add'] nor ['remove'] makes the reducer
    throw. *)
Example reducer_unknown_action :
  reducer (λ _, "in1") [1%nat] {| type := "clear"; value := 1%nat |} = Throw (Error "").
Proof. reflexivity. Qed.

End Registries.

(** ** The message encoder and the send facades *)

Section Encoder.

Lemma or_dataByte2 (value : option Z) : or value 0 = dataByte2 value.
Proof.
  destruct value as [v|]; [|done]. unfold or, truthy; simpl.
  by destruct (Z.eqb_spec v 0).
Qed.

Lemma or_dataByte1 (pitch cc : option Z) : or pitch (or cc 0) = dataByte1 pitch cc.
Proof.
  rewrite (or_dataByte2 cc). unfold dataByte1, dataByte2.
  destruct pitch as [p|]; [|done]. unfold or, truthy.
  destruct (Z.eqb_spec p 0); by case_decide.
Qed.

Lemma V1_msg props :
  V1.msg props =
  [ V1.translateTypeToStatusByte (nullish (V1.type props) "cc") + nullish (V1.channel props) 0;
    dataByte1 (V1.pitch props) (V1.cc props);
    dataByte2 (V1.value props) ].
Proof. unfold V1.msg. by rewrite or_dataByte1, or_dataByte2. Qed.

Lemma V2_msg props :
  V2.msg props =
  [ V2.translateTypeToStatusByte (nullish (V2.type props) "cc") + nullish (V2.channel props) 0;
    dataByte1 (V2.pitch props) (V2.cc props);
    dataByte2 (V2.value props) ].
Proof. unfold V2.msg. by rewrite or_dataByte1, or_dataByte2. Qed.

(** Whether it raises or not, [send] is called once with the message. *)
Lemma send_sent d m w :
  sent (snd (send d m w)) = sent w ++ [(port_id (out_port d), m)].
Proof. unfold send. by destruct (send_raises d m). Qed.

Lemma V1_sendMIDIMessage_single props d w :
  V1.device props = Some (V1.Single d) →
  sent (snd (V1.sendMIDIMessage props w)) = sent w ++ [(port_id (out_port d), V1.msg props)].
Proof.
  intros Hd. unfold V1.sendMIDIMessage. rewrite Hd.
  pose proof (send_sent d (V1.msg props) w) as Hs.
  destruct (send d (V1.msg props) w) as [[?|e] w']; simpl in *; [done|].
  by destruct (V1.log props).
Qed.

Lemma V2_sendMIDIMessage_device props d w :
  V2.device props = Some d →
  sent (snd (V2.sendMIDIMessage props w)) = sent w ++ [(port_id (out_port d), V2.msg props)].
Proof.
  intros Hd. unfold V2.sendMIDIMessage. rewrite Hd.
  pose proof (send_sent d (V2.msg props) w) as Hs.
  destruct (send d (V2.msg props) w) as [[?|e] w']; simpl in *; [done|].
  by destruct (V2.log props).
Qed.

(** In the older revision an array of outputs is served in order; when no
    [send] raises, every output that is present gets the message. *)
Lemma V1_forEach_send_all ds m w :
  (∀ d, Some d ∈ ds → send_raises d m = None) →
  V1.forEach_send ds m w
  = (Ok tt,
     {| sent := sent w ++ ((λ d, (port_id (out_port d), m)) <$> omap (λ d, d) ds);
        warnings := warnings w; unhandled := unhandled w |}).
Proof.
  revert w. induction ds as [|[d|] ds IH]; intros w Hok; simpl.
  - rewrite app_nil_r. by destruct w.
  - unfold send. rewrite (Hok d) by left.
    rewrite IH by (intros d' Hd'; apply Hok; by right). simpl.
    by rewrite <- app_assoc.
  - apply IH. intros d' Hd'. apply Hok. by right.
Qed.

(** C5.  In both revisions [sendMIDIMessage] calls [send] of the device
    once, with the three bytes [translateTypeToStatusByte(type) + (channel
    ?? 0)], data byte 1 and data byte 2, the type defaulting to ['cc']; data
    byte 1 is 0 when neither pitch nor cc is supplied and data byte 2 is 0
    when no value is supplied; and through the facades, note-on of pitch
    60 with velocity 100 on channel 1 sends [0x91, 60, 100], note-off of
    pitch 60 on channel 1 sends [0x81, 60, 0]. *)
Theorem sendMIDIMessage_encodes_three_bytes :
  (∀ channel cc value velocity pitch type log d w,
     sent (snd (V1.sendMIDIMessage
                  {| V1.channel := channel; V1.cc := cc; V1.value := value;
                     V1.velocity := velocity; V1.pitch := pitch;
                     V1.device := Some (V1.Single d); V1.type := type; V1.log := log |} w))
     = sent w ++
       [(port_id (out_port d),
         [ V1.translateTypeToStatusByte (nullish type "cc") + nullish channel 0;
           dataByte1 pitch cc; dataByte2 value ])])
  ∧ (∀ channel cc value velocity pitch type log d w,
     sent (snd (V2.sendMIDIMessage
                  {| V2.channel := channel; V2.cc := cc; V2.value := value;
                     V2.velocity := velocity; V2.pitch := pitch;
                     V2.device := Some d; V2.type := type; V2.log := log |} w))
     = sent w ++
       [(port_id (out_port d),
         [ V2.translateTypeToStatusByte (nullish type "cc") + nullish channel 0;
           dataByte1 pitch cc; dataByte2 value ])])
  ∧ dataByte1 None None = 0
  ∧ dataByte2 None = 0
  ∧ (∀ d p,
       sent (effects (snd (V1.sendMIDINoteOn (Samples.note_on_args 1 60 100 d) p)))
       = sent (effects p) ++ [(port_id (out_port d), [0x91; 60; 100])]
       ∧ sent (effects (snd (V1.sendMIDINoteOff (Samples.note_off_args 1 60 d) p)))
         = sent (effects p) ++ [(port_id (out_port d), [0x81; 60; 0])]
       ∧ sent (effects (snd (V2.sendMIDINoteOn (Samples.note_on_args 1 60 100 d) p)))
         = sent (effects p) ++ [(port_id (out_port d), [0x91; 60; 100])]
       ∧ sent (effects (snd (V2.sendMIDINoteOff (Samples.note_off_args 1 60 d) p)))
         = sent (effects p) ++ [(port_id (out_port d), [0x81; 60; 0])]).
Proof.
  split; [|split; [|split; [done|split; [done|]]]].
  - intros. rewrite (V1_sendMIDIMessage_single _ d) by done. by rewrite V1_msg.
  - intros. rewrite (V2_sendMIDIMessage_device _ d) by done. by rewrite V2_msg.
  - intros d p. repeat split.
    + unfold V1.sendMIDINoteOn; simpl.
      match goal with |- context [V1.sendMIDIMessage ?props ?w] =>
        pose proof (V1_sendMIDIMessage_single props d w eq_refl) as Hs;
        destruct (V1.sendMIDIMessage props w) as [[?|?] ?] end; exact Hs.
    + unfold V1.sendMIDINoteOff; simpl.
      match goal with |- context [V1.sendMIDIMessage ?props ?w] =>
        pose proof (V1_sendMIDIMessage_single props d w eq_refl) as Hs;
        destruct (V1.sendMIDIMessage props w) as [[?|?] ?] end; exact Hs.
    + unfold V2.sendMIDINoteOn; simpl.
      match goal with |- context [V2.sendMIDIMessage ?props ?w] =>
        pose proof (V2_sendMIDIMessage_device props d w eq_refl) as Hs;
        destruct (V2.sendMIDIMessage props w) as [? ?] end; exact Hs.
    + unfold V2.sendMIDINoteOff; simpl.
      match goal with |- context [V2.sendMIDIMessage ?props ?w] =>
        pose proof (V2_sendMIDIMessage_device props d w eq_refl) as Hs;
        destruct (V2.sendMIDIMessage props w) as [? ?] end; exact Hs.
Qed.

(** In the newer revision [sendMIDICC] accepts the value 0, for every
    channel, controller number, device and provider state: it does not
    raise, the message handed to [send] is [0xB0 + channel, cc, 0], and the
    value 0 is stored. *)
Lemma V2_sendMIDICC_value_zero channel cc d p :
  ∃ p',
    V2.sendMIDICC (Samples.cc_args channel cc 0 d) p = (Ok tt, p')
    ∧ sent (effects p') = sent (effects p) ++ [(port_id (out_port d), [0xB0 + channel; cc; 0])]
    ∧ values p'
      = useStoreData.set
          {| useStoreData.u_channel := channel; useStoreData.u_cc := cc;
             useStoreData.u_value := 0; useStoreData.u_device := out_port d |}
          (values p).
Proof.
  unfold V2.sendMIDICC; simpl.
  match goal with |- context [V2.sendMIDIMessage ?props ?w] =>
    pose proof (V2_sendMIDIMessage_device props d w eq_refl) as Hs;
    destruct (V2.sendMIDIMessage props w) as [? w'] end.
  eexists. split; [reflexivity|]. split; [|reflexivity].
  simpl in *. rewrite Hs, V2_msg. simpl.
  unfold dataByte1, dataByte2; simpl. reflexivity.
Qed.

Example V2_sendMIDICC_channel_1_cc_64_value_0 :
  let p := Samples.granted Samples.input_without_open "in1" in
  let r := V2.sendMIDICC (Samples.cc_args 1 64 0 (Samples.output "out1")) p in
  fst r = Ok tt
  ∧ sent (effects (snd r)) = [("out1", [0xB1; 64; 0])]
  ∧ useStoreData.channel_entry (values (snd r)) 1 64 = Some 0
  ∧ useStoreData.device_entry (values (snd r)) "out1" 1 64 = Some 0.
Proof. by vm_compute. Qed.

Example V2_sendMIDIMessage_outcome :
  fst (V2.sendMIDIMessage
         {| V2.channel := Some 1; V2.cc := Some 64; V2.value := Some 0;
            V2.velocity := None; V2.pitch := None;
            V2.device := Some (Samples.output "out1");
            V2.type := None; V2.log := false |} quiet)
  = "MIDI message successfully sent : 177,64,0".
Proof. by vm_compute. Qed.

(** The older revision rejects channel 0 and controller number 0 in the
    same way as value 0. *)
Example V1_sendMIDICC_rejects_channel_zero :
  fst (V1.sendMIDICC (Samples.cc_args 0 64 100 (Samples.output "out1"))
         (Samples.granted Samples.input_without_open "in1"))
  = Throw (Error "no channel provided for cc. Expected a number and received 0").
Proof. reflexivity. Qed.

(** C1.  The specification asks that [sendMIDICC] with value 0 does not raise and
    sends [0xB0 + channel, cc, 0].  The older revision tests the value by
    truthiness: on channel 1, controller 64, value 0 it raises before
    anything is sent or stored, with every device and in every state. *)
Theorem V1_sendMIDICC_rejects_value_zero d p :
  V1.sendMIDICC (Samples.cc_args 1 64 0 d) p
  = (Throw (Error "no value provided for noteOn. Expected a number and received 0"), p).
Proof. reflexivity. Qed.

End Encoder.

(** ** Opening an input *)

Section Inputs.

(** When [open] is called and fails, the promise of [openMIDIInput] is
    rejected. *)
Lemma V2_openMIDIInput_rejected input cb h :
  open (h input) ≠ Resolves →
  (port_connection (in_port (h input)) ≠ "open" ∨ is_Some cb) →
  ∃ e h', V2.openMIDIInput input cb h = (Rejected e, h').
Proof.
  intros Hopen Hcalled. unfold V2.openMIDIInput.
  assert (String.eqb (port_connection (in_port (h input))) "open"
          && negb (bool_decide (is_Some cb)) = false) as ->.
  { destruct Hcalled as [Hne|Hcb].
    - destruct (String.eqb_spec (port_connection (in_port (h input))) "open"); done.
    - rewrite bool_decide_eq_true_2 by done. apply andb_false_r. }
  assert (∀ g : Registry.ref → MIDIInput, open (g input) = open (h input) →
          ∃ e, call_async (open (g input)) = Throw e) as Hcall.
  { intros g ->. destruct (open (h input)); simpl; [by eexists|done|by eexists]. }
  destruct cb as [f|].
  - edestruct (Hcall (<[input:=assign_handler (Wrapped f)
                          ((<[input:=assign_handler PassThrough (h input)]> h) input)]>
                        (<[input:=assign_handler PassThrough (h input)]> h))) as [e He].
    { by rewrite !fn_lookup_insert. }
    rewrite He. by eexists _, _.
  - edestruct (Hcall (<[input:=assign_handler PassThrough (h input)]> h)) as [e He].
    { by rewrite !fn_lookup_insert. }
    rewrite He. by eexists _, _.
Qed.

(** In the newer revision [addMIDIInput] awaits the opening: when [open]
    is called and fails, it gives [false] and the registry is as before. *)
Lemma V2_addMIDIInput_open_fails input cb p :
  open (heap p input) ≠ Resolves →
  (port_connection (in_port (heap p input)) ≠ "open" ∨ is_Some cb) →
  fst (V2.addMIDIInput input cb p) = false
  ∧ connectedMIDIInputs (snd (V2.addMIDIInput input cb p)) = connectedMIDIInputs p.
Proof.
  intros Hopen Hcalled. unfold V2.addMIDIInput.
  destruct (midiAccess p); [|done].
  destruct (V2_openMIDIInput_rejected input cb (heap p) Hopen Hcalled) as (e & h' & ->).
  done.
Qed.

(** An input whose connection is already ["open"], added without
    callback, is not opened again: [open] is not called, and the input is
    registered. *)
Lemma V2_addMIDIInput_already_open input p :
  is_Some (midiAccess p) →
  port_connection (in_port (heap p input)) = "open" →
  fst (V2.addMIDIInput input None p) = true
  ∧ input ∈ connectedMIDIInputs (snd (V2.addMIDIInput input None p))
  ∧ heap (snd (V2.addMIDIInput input None p)) = heap p.
Proof.
  intros [a Ha] Hopen. unfold V2.addMIDIInput, V2.openMIDIInput.
  rewrite Ha, Hopen. simpl. split; [done|]. split; [|done].
  unfold Registry.dispatch; simpl.
  apply Set_from_elem. right. apply elem_of_app. right. by left.
Qed.

Example V2_addMIDIInput_without_open :
  let p := Samples.granted Samples.input_without_open "in1" in
  let r := V2.addMIDIInput 0%nat None p in
  fst r = false ∧ connectedMIDIInputs (snd r) = [].
Proof. by vm_compute. Qed.

Example V2_addMIDIInput_open_input_without_open :
  let p := Samples.granted Samples.open_input_without_open "in1" in
  let r := V2.addMIDIInput 0%nat None p in
  fst r = true ∧ connectedMIDIInputs (snd r) = [0%nat].
Proof. by vm_compute. Qed.

(** In the older revision, a callback built in a render that had the
    access gives [true] and registers the input whatever becomes of the
    opening; a callback built before the grant gives [false] and changes
    nothing. *)
Lemma V1_addMIDIInput_granted seen input cb p :
  is_Some seen →
  fst (V1.addMIDIInput seen input cb p) = true
  ∧ input ∈ connectedMIDIInputs (snd (V1.addMIDIInput seen input cb p)).
Proof.
  intros [a Ha]. unfold V1.addMIDIInput. rewrite Ha.
  destruct (V1.openMIDIInput input cb (heap p)) as [promise h]. simpl.
  split; [done|].
  unfold Registry.dispatch; simpl.
  apply Set_from_elem. right. apply elem_of_app. right. by left.
Qed.

Lemma V1_addMIDIInput_before_grant input cb p :
  V1.addMIDIInput None input cb p = (false, p).
Proof. reflexivity. Qed.

(** After the grant the memoised [addMIDIInput] still answers [false],
    until a dispatch has replaced the registry of inputs. *)
Lemma V1_addMIDIInput_stale_after_grant h a input cb :
  let r := V1_provider.setMIDIAccess a (V1_provider.mount h) in
  V1_provider.addMIDIInput input cb r = (false, r).
Proof. reflexivity. Qed.

(** C8.  The specification asks for [false] and an unchanged registry when the
    input has no [open] capability.  In the older revision: the provider is
    mounted, access is granted, [removeMIDIInput] is called once (the
    registry of inputs becomes a new array and [addMIDIInput] is built
    again, with the access), and [addMIDIInput] is called on an input that
    is not open and has no [open].  The call gives [true], the input is in
    the registry, and the [TypeError] of the missing [open] is the
    rejection of a promise nobody awaits. *)
Theorem V1_addMIDIInput_without_open_registers :
  let granted :=
    V1_provider.setMIDIAccess ([], [])
      (V1_provider.mount (λ _, Samples.input_without_open "in1")) in
  let rebuilt := snd (V1_provider.removeMIDIInput 0%nat granted) in
  let r := V1_provider.addMIDIInput 0%nat None rebuilt in
  open (heap (V1_provider.now rebuilt) 0%nat) = Missing
  ∧ connectedMIDIInputs (V1_provider.now rebuilt) = []
  ∧ fst r = true
  ∧ connectedMIDIInputs (V1_provider.now (snd r)) = [0%nat]
  ∧ unhandled (effects (V1_provider.now (snd r))) = [TypeError].
Proof. repeat split. Qed.

End Inputs.

(** * More of the code *)

(** ** The store: how writes compose *)

Section StoreWrites.

Import useStoreData.

Implicit Types (s : Store) (u : Update) (m : gmap Z (gmap Z Z)).

Lemma set_as_put u s :
  set u s =
  {| byDevice :=
       <[ port_id (u_device u) :=
            put (u_channel u) (u_cc u) (u_value u)
                (object_spread (byDevice s !! port_id (u_device u))) ]> (byDevice s);
     byChannel := put (u_channel u) (u_cc u) (u_value u) (byChannel s) |}.
Proof.
  unfold set, put. f_equal. do 3 f_equal.
  by destruct (byDevice s !! port_id (u_device u)).
Qed.

Lemma put_put_same channel cc v1 v2 m :
  put channel cc v2 (put channel cc v1 m) = put channel cc v2 m.
Proof.
  unfold put. rewrite lookup_insert_eq; simpl. by rewrite !insert_insert_eq.
Qed.

Lemma put_commute c1 k1 v1 c2 k2 v2 m :
  (c1, k1) ≠ (c2, k2) →
  put c1 k1 v1 (put c2 k2 v2 m) = put c2 k2 v2 (put c1 k1 v1 m).
Proof.
  intros Hne. unfold put.
  destruct (decide (c1 = c2)) as [->|Hc].
  - assert (k1 ≠ k2) by congruence.
    rewrite !lookup_insert_eq; simpl. rewrite !insert_insert_eq.
    f_equal. by apply insert_insert_ne.
  - rewrite !lookup_insert_ne by done. by apply insert_insert_ne.
Qed.

(** X1.  A write changes one place of each index and nothing else: every
    other (channel, cc) of [byChannel] and every other (device, channel,
    cc) of [byDevice] reads as before. *)
Theorem set_changes_one_place u s :
  (∀ channel cc, (channel, cc) ≠ (u_channel u, u_cc u) →
     channel_entry (set u s) channel cc = channel_entry s channel cc)
  ∧ (∀ id channel cc, (id, channel, cc) ≠ (port_id (u_device u), u_channel u, u_cc u) →
       device_entry (set u s) id channel cc = device_entry s id channel cc).
Proof.
  split.
  - intros channel cc Hne. rewrite channel_entry_set.
    apply decide_False. intros [-> ->]. by apply Hne.
  - intros id channel cc Hne. rewrite device_entry_set.
    apply decide_False. intros (-> & -> & ->). by apply Hne.
Qed.

Lemma set_changes_one_place_witness :
  channel_entry
    (set {| u_channel := 1; u_cc := 64; u_value := 100; u_device := Samples.port "out1" |}
         initial) 1 65
  = channel_entry initial 1 65.
Proof.
  apply (proj1 (set_changes_one_place
                  {| u_channel := 1; u_cc := 64; u_value := 100;
                     u_device := Samples.port "out1" |} initial)).
  simpl. intros [= ?].
Defined.

(** X2.  No history is kept: a second write by the same device to the
    same channel and controller number leaves the store that the second
    write alone would have left. *)
Theorem set_overwrites u1 u2 s :
  port_id (u_device u1) = port_id (u_device u2) →
  u_channel u1 = u_channel u2 →
  u_cc u1 = u_cc u2 →
  set u2 (set u1 s) = set u2 s.
Proof.
  intros Hid Hch Hcc. rewrite (set_as_put u2 (set u1 s)), (set_as_put u2 s), (set_as_put u1 s).
  simpl. rewrite Hid, Hch, Hcc. f_equal.
  - rewrite lookup_insert_eq; simpl. by rewrite insert_insert_eq, put_put_same.
  - apply put_put_same.
Qed.

Lemma set_overwrites_witness :
  let out1 := Samples.port "out1" in
  set {| u_channel := 1; u_cc := 64; u_value := 20; u_device := out1 |}
    (set {| u_channel := 1; u_cc := 64; u_value := 10; u_device := out1 |} initial)
  = set {| u_channel := 1; u_cc := 64; u_value := 20; u_device := out1 |} initial.
Proof. simpl. by apply set_overwrites. Defined.

(** X3.  Writes to different (channel, cc) places commute, whatever their
    devices. *)
Theorem set_commutes u1 u2 s :
  (u_channel u1, u_cc u1) ≠ (u_channel u2, u_cc u2) →
  set u1 (set u2 s) = set u2 (set u1 s).
Proof.
  intros Hne.
  rewrite (set_as_put u1 (set u2 s)), (set_as_put u2 (set u1 s)),
    (set_as_put u2 s), (set_as_put u1 s). simpl. f_equal.
  - destruct (decide (port_id (u_device u1) = port_id (u_device u2))) as [Hid|Hid].
    + rewrite Hid, !lookup_insert_eq; simpl. rewrite !insert_insert_eq.
      f_equal. by apply put_commute.
    + rewrite !lookup_insert_ne by done. by apply insert_insert_ne.
  - by apply put_commute.
Qed.

Lemma set_commutes_witness :
  let out1 := Samples.port "out1" in
  let a := {| u_channel := 1; u_cc := 64; u_value := 10; u_device := out1 |} in
  let b := {| u_channel := 2; u_cc := 64; u_value := 20; u_device := out1 |} in
  set a (set b initial) = set b (set a initial).
Proof. simpl. apply set_commutes. simpl. intros [= ?]. Defined.

End StoreWrites.

(** ** The store: runs of writes, reads, subscriptions *)

Section StoreRuns.

Import useStoreData.

Implicit Types (s : Store) (u : Update) (us : list Update).

Lemma device_entry_last_writer us s id channel cc :
  device_entry (fold_left (λ s u, set u s) us s) id channel cc
  = match list_find (λ u, port_id (u_device u) = id ∧ u_channel u = channel ∧ u_cc u = cc)
                    (reverse us) with
    | Some (_, u) => Some (u_value u)
    | None => device_entry s id channel cc
    end.
Proof.
  induction us as [|u us IH] using rev_ind; [done|].
  rewrite fold_left_app, reverse_snoc; simpl.
  rewrite device_entry_set.
  destruct (decide (id = port_id (u_device u) ∧ channel = u_channel u ∧ cc = u_cc u))
    as [(-> & -> & ->)|Hne].
  - by rewrite decide_True.
  - rewrite decide_False by (intros (? & ? & ?); apply Hne; by repeat split).
    rewrite IH. by destruct (list_find _ (reverse us)) as [[? ?]|].
Qed.

(** X4.  After a run of writes, first to last, on any store: the value
    [byChannel] holds for (channel, cc) is that of the last write to that
    channel and controller number by whatever device, the value [byDevice]
    holds for (device, channel, cc) is that of the last such write by that
    device, and a place no write of the run names reads as before. *)
Theorem entries_after_writes us s id channel cc :
  channel_entry (fold_left (λ s u, set u s) us s) channel cc
  = match list_find (λ u, u_channel u = channel ∧ u_cc u = cc) (reverse us) with
    | Some (_, u) => Some (u_value u)
    | None => channel_entry s channel cc
    end
  ∧ device_entry (fold_left (λ s u, set u s) us s) id channel cc
    = match list_find (λ u, port_id (u_device u) = id ∧ u_channel u = channel ∧ u_cc u = cc)
                      (reverse us) with
      | Some (_, u) => Some (u_value u)
      | None => device_entry s id channel cc
      end.
Proof. split; [apply channel_entry_last_writer | apply device_entry_last_writer]. Qed.

(** X5.  Reading back through [get]: after a write on a channel and a
    controller number that are not 0, the query by (channel, cc) answers
    the value written, and the query by channel alone answers a map that
    holds it; neither raises. *)
Theorem get_reads_back_written_value u s :
  u_channel u ≠ 0 → u_cc u ≠ 0 →
  get (Some {| q_channel := Some (u_channel u); q_cc := Some (u_cc u); q_device := None |})
      (set u s)
  = Ok (Value (Some (u_value u)))
  ∧ ∃ m, get (Some {| q_channel := Some (u_channel u); q_cc := None; q_device := None |})
             (set u s)
         = Ok (ChannelValues (Some m))
         ∧ m !! u_cc u = Some (u_value u).
Proof.
  intros Hch Hcc. split; [by apply get_after_set|].
  unfold get; simpl. unfold truthy.
  destruct (Z.eqb_spec (u_channel u) 0) as [?|_]; [done|]. simpl.
  rewrite lookup_insert_eq. eexists. split; [done|]. apply lookup_insert_eq.
Qed.

Lemma get_reads_back_written_value_witness :
  get (Some {| q_channel := Some 1; q_cc := Some 64; q_device := None |})
      (set {| u_channel := 1; u_cc := 64; u_value := 0; u_device := Samples.port "out1" |}
           initial)
  = Ok (Value (Some 0)).
Proof.
  apply (get_reads_back_written_value
           {| u_channel := 1; u_cc := 64; u_value := 0; u_device := Samples.port "out1" |}
           initial); simpl; lia.
Defined.

(** X6.  The subscriber set is a set: subscribing a callback a second time
    changes nothing, one call of either returned function removes the
    callback and answers [true], the other returned function then finds
    nothing and answers [false]; and subscribing a callback that was not
    registered, then calling the returned function, restores the set. *)
Theorem subscribe_twice_unsubscribe_once cb h :
  let unsubscribe1 := fst (subscribe cb h) in
  let h1 := snd (subscribe cb h) in
  let unsubscribe2 := fst (subscribe cb h1) in
  let h2 := snd (subscribe cb h1) in
  subscribers h2 = subscribers h1
  ∧ fst (unsubscribe1 h2) = true
  ∧ (cb ∉ subscribers (snd (unsubscribe1 h2)))
  ∧ fst (unsubscribe2 (snd (unsubscribe1 h2))) = false
  ∧ (cb ∉ subscribers h → subscribers (snd (unsubscribe1 h1)) = subscribers h).
Proof.
  simpl. split; [|split; [|split; [|split]]].
  - apply set_eq. intros x. rewrite !elem_of_union, !elem_of_singleton. tauto.
  - apply bool_decide_eq_true. rewrite !elem_of_union, !elem_of_singleton. tauto.
  - rewrite elem_of_difference, elem_of_singleton. tauto.
  - apply bool_decide_eq_false. rewrite elem_of_difference, elem_of_singleton. tauto.
  - intros Hnot. apply set_eq. intros x.
    rewrite elem_of_difference, elem_of_union, elem_of_singleton.
    split; [tauto|]. intros Hx. split; [tauto|]. by intros ->.
Qed.

Lemma subscribe_twice_unsubscribe_once_witness :
  subscribers (snd (fst (subscribe 1%nat mount) (snd (subscribe 1%nat mount))))
  = subscribers mount.
Proof.
  apply (subscribe_twice_unsubscribe_once 1%nat mount). simpl. apply not_elem_of_empty.
Defined.

End StoreRuns.

(** ** The registries: what [add] and [remove] keep *)

Section RegistryMore.

Import Registry.

Implicit Types (state seen l : list ref) (h r : ref).

Lemma Set_from_fresh seen l : NoDup (seen ++ l) → Set_from seen l = seen ++ l.
Proof.
  revert seen. induction l as [|x l IH]; intros seen Hnd; simpl.
  - by rewrite app_nil_r.
  - rewrite bool_decide_eq_false_2.
    + rewrite IH; rewrite <- app_assoc; done.
    + apply list.NoDup_app in Hnd as (_ & Hdisj & _).
      intros Hx. apply (Hdisj x Hx). left.
Qed.

Lemma Set_from_app seen l1 l2 : Set_from seen (l1 ++ l2) = Set_from (Set_from seen l1) l2.
Proof.
  revert seen. induction l1 as [|x l1 IH]; intros seen; simpl; [done|].
  by case_bool_decide.
Qed.

(** X7.  After [add] the registry has no object twice, it holds the
    objects it held and the one added, and nothing else; on a registry
    without repetition, adding an object not yet there appends it, and
    adding one already there changes nothing, not even the order. *)
Theorem add_keeps_registry_a_set id_of h state :
  NoDup (dispatch id_of (add h) state)
  ∧ (∀ r, r ∈ dispatch id_of (add h) state ↔ r ∈ state ∨ r = h)
  ∧ (NoDup state → h ∉ state → dispatch id_of (add h) state = state ++ [h])
  ∧ (NoDup state → h ∈ state → dispatch id_of (add h) state = state).
Proof.
  split; [apply dispatch_add_NoDup|]. split; [intros r; apply dispatch_add_elem|].
  rewrite dispatch_add. split.
  - intros Hnd Hnot. apply (Set_from_fresh [] (state ++ [h])); simpl.
    apply list.NoDup_app. split; [done|]. split; [|apply NoDup_singleton].
    intros x Hx. rewrite list_elem_of_singleton. by intros ->.
  - intros Hnd Hin. rewrite Set_from_app.
    rewrite (Set_from_fresh [] state) by done. simpl.
    by rewrite bool_decide_eq_true_2.
Qed.

Lemma add_keeps_registry_a_set_witness :
  dispatch (λ _, "in1") (add 2%nat) [1%nat; 2%nat; 3%nat] = [1%nat; 2%nat; 3%nat].
Proof.
  apply (add_keeps_registry_a_set (λ _, "in1") 2%nat [1%nat; 2%nat; 3%nat]).
  - repeat constructor; rewrite ?elem_of_cons, ?elem_of_nil; lia.
  - rewrite !elem_of_cons. lia.
Defined.

Lemma dispatch_remove_elem id_of h state r :
  r ∈ dispatch id_of (remove h) state ↔ r ∈ state ∧ id_of r ≠ id_of h.
Proof.
  unfold dispatch, reducer; simpl. rewrite list_elem_of_filter.
  destruct (String.eqb_spec (id_of h) (id_of r)) as [Heq|Hne]; simpl.
  - split; [intros [? _]; done | intros [_ Hne]; congruence].
  - split; [intros [_ ?]; split; [done | congruence] | intros [? _]; done].
Qed.

(** X8.  [remove] goes by id, not by object: what stays are the entries
    whose id differs from that of the handle given, in their order; no
    entry with that id is left, whichever object carried it; and when no
    entry has that id the registry is as before. *)
Theorem remove_is_by_id id_of h state :
  (∀ r, r ∈ dispatch id_of (remove h) state ↔ r ∈ state ∧ id_of r ≠ id_of h)
  ∧ sublist (dispatch id_of (remove h) state) state
  ∧ entries_with_id id_of (id_of h) (dispatch id_of (remove h) state) = []
  ∧ ((∀ r, r ∈ state → id_of r ≠ id_of h) → dispatch id_of (remove h) state = state).
Proof.
  split; [|split; [|split]].
  - intros r. apply dispatch_remove_elem.
  - unfold dispatch, reducer; simpl. apply sublist_filter.
  - apply dispatch_remove_entries.
  - apply dispatch_remove_absent.
Qed.

Lemma remove_is_by_id_witness :
  dispatch (λ r, if decide (r = 3%nat) then "in2" else "in1") (remove 1%nat) [3%nat]
  = [3%nat].
Proof.
  apply (remove_is_by_id (λ r, if decide (r = 3%nat) then "in2" else "in1") 1%nat [3%nat]).
  intros r Hr. apply list_elem_of_singleton in Hr as ->. simpl. discriminate.
Defined.

(** X9.  Removing a handle and adding it again leaves exactly one entry
    for its id, in every registry: [remove] clears every object with
    that id, also objects other than the handle. *)
Theorem remove_then_add_one_entry id_of h state :
  entries_with_id id_of (id_of h)
    (dispatch id_of (add h) (dispatch id_of (remove h) state)) = [h].
Proof.
  unfold entries_with_id. apply NoDup_all_same.
  - apply list.NoDup_filter, dispatch_add_NoDup.
  - intros r [Hid Hr]%list_elem_of_filter.
    apply dispatch_add_elem in Hr as [Hr| ->]; [|done].
    exfalso.
    assert (r ∈ entries_with_id id_of (id_of h) (dispatch id_of (remove h) state)) as Hin.
    { apply list_elem_of_filter. by split. }
    rewrite dispatch_remove_entries in Hin. by apply elem_of_nil in Hin.
  - apply list_elem_of_filter. split; [done|]. apply dispatch_add_elem. by right.
Qed.

End RegistryMore.

(** ** The encoder and the facades: bounds, failures, the two revisions *)

Section EncoderMore.

(** The values the status-byte table takes. *)
Lemma documented_values type :
  documented type ∈ [0x80; 0x90; 0xA0; 0xB0; 0xC0; 0xD0; 0xE0; 0x00].
Proof.
  unfold documented. repeat (case_decide; [rewrite !elem_of_cons; tauto|]).
  rewrite !elem_of_cons; tauto.
Qed.

Lemma V1_translateTypeToStatusByte_values type :
  V1.translateTypeToStatusByte type ∈ [0x80; 0x90; 0xA0; 0xB0; 0xC0; 0xD0; 0xE0; 0x00].
Proof.
  destruct (decide (type = "afterTouch")) as [->|Hne].
  - assert (V1.translateTypeToStatusByte "afterTouch" = 0xB0) as -> by reflexivity.
    rewrite !elem_of_cons; tauto.
  - rewrite V1_translateTypeToStatusByte_documented by done. apply documented_values.
Qed.

Lemma nibbles t c :
  t ∈ [0x80; 0x90; 0xA0; 0xB0; 0xC0; 0xD0; 0xE0; 0x00] → 0 ≤ c ≤ 15 →
  Z.land (t + c) 0xF0 = t ∧ Z.land (t + c) 0x0F = c ∧ 0 ≤ t + c ≤ 0xEF.
Proof.
  intros Ht Hc.
  assert (c = 0 ∨ c = 1 ∨ c = 2 ∨ c = 3 ∨ c = 4 ∨ c = 5 ∨ c = 6 ∨ c = 7 ∨ c = 8
          ∨ c = 9 ∨ c = 10 ∨ c = 11 ∨ c = 12 ∨ c = 13 ∨ c = 14 ∨ c = 15) as Hcases by lia.
  rewrite !elem_of_cons, elem_of_nil in Ht.
  destruct Ht as [->|[->|[->|[->|[->|[->|[->|[->|[]]]]]]]]];
    repeat (destruct Hcases as [->|Hcases]; [vm_compute; intuition congruence|]);
    subst c; vm_compute; intuition congruence.
Qed.

(** X10.  With a channel from 0 to 15, the first byte of the message of
    either revision is a byte not above 0xEF whose high nibble is the
    status of the type and whose low nibble is the channel: type and
    channel can be read back from it. *)
Theorem status_byte_splits_into_type_and_channel c :
  0 ≤ c ≤ 15 →
  (∀ props, V1.channel props = Some c →
     ∃ status d1 d2,
       V1.msg props = [status; d1; d2]
       ∧ Z.land status 0xF0 = V1.translateTypeToStatusByte (nullish (V1.type props) "cc")
       ∧ Z.land status 0x0F = c
       ∧ 0 ≤ status ≤ 0xEF)
  ∧ (∀ props, V2.channel props = Some c →
     ∃ status d1 d2,
       V2.msg props = [status; d1; d2]
       ∧ Z.land status 0xF0 = V2.translateTypeToStatusByte (nullish (V2.type props) "cc")
       ∧ Z.land status 0x0F = c
       ∧ 0 ≤ status ≤ 0xEF).
Proof.
  intros Hc. split; intros props Hch.
  - unfold V1.msg. rewrite Hch; simpl. eexists _, _, _. split; [reflexivity|].
    apply nibbles; [apply V1_translateTypeToStatusByte_values | done].
  - unfold V2.msg. rewrite Hch; simpl. eexists _, _, _. split; [reflexivity|].
    apply nibbles; [|done].
    rewrite V2_translateTypeToStatusByte_documented. apply documented_values.
Qed.

Lemma status_byte_splits_into_type_and_channel_witness :
  ∃ status d1 d2,
    V2.msg {| V2.channel := Some 15; V2.cc := None; V2.value := Some 100;
              V2.velocity := None; V2.pitch := Some 60; V2.device := None;
              V2.type := Some "noteOn"; V2.log := false |}
    = [status; d1; d2]
    ∧ Z.land status 0xF0 = V2.translateTypeToStatusByte "noteOn"
    ∧ Z.land status 0x0F = 15
    ∧ 0 ≤ status ≤ 0xEF.
Proof.
  apply (proj2 (status_byte_splits_into_type_and_channel 15 ltac:(lia))
           {| V2.channel := Some 15; V2.cc := None; V2.value := Some 100;
              V2.velocity := None; V2.pitch := Some 60; V2.device := None;
              V2.type := Some "noteOn"; V2.log := false |}).
  reflexivity.
Defined.

(** On one output the two revisions of [sendMIDIMessage] do the same,
    for every type on which the two status-byte tables agree. *)
Lemma sendMIDIMessage_agree channel cc value velocity pitch type log d w :
  V1.translateTypeToStatusByte (nullish type "cc")
  = V2.translateTypeToStatusByte (nullish type "cc") →
  V1.sendMIDIMessage
    {| V1.channel := channel; V1.cc := cc; V1.value := value; V1.velocity := velocity;
       V1.pitch := pitch; V1.device := Some (V1.Single d); V1.type := type; V1.log := log |} w
  = (Ok (fst (V2.sendMIDIMessage
                {| V2.channel := channel; V2.cc := cc; V2.value := value;
                   V2.velocity := velocity; V2.pitch := pitch; V2.device := Some d;
                   V2.type := type; V2.log := log |} w)),
     snd (V2.sendMIDIMessage
            {| V2.channel := channel; V2.cc := cc; V2.value := value;
               V2.velocity := velocity; V2.pitch := pitch; V2.device := Some d;
               V2.type := type; V2.log := log |} w)).
Proof.
  intros Ht. unfold V1.sendMIDIMessage, V2.sendMIDIMessage, V1.msg, V2.msg; simpl.
  rewrite Ht. by destruct (send d _ w) as [[?|?] ?].
Qed.

Local Ltac split_args args :=
  destruct args as [[c|] [k|] [pi|] [v|] [ve|] [d|]].

Local Ltac refute :=
  intros;
  repeat match goal with
         | H : _ ∧ _ |- _ => destruct H
         | H : _ ∨ _ |- _ => destruct H
         | H : is_Some None |- _ => destruct H as [? ?]
         end;
  first [discriminate | done].

Local Ltac run_message :=
  repeat match goal with
         | |- context [V2.sendMIDIMessage ?props ?w] =>
             destruct (V2.sendMIDIMessage props w) as [? ?]
         | |- context [V1.sendMIDIMessage ?props ?w] =>
             destruct (V1.sendMIDIMessage props w) as [[?|?] ?] eqn:?
         end.

(** X11.  The newer facades validate, then send: each one returns
    normally exactly when the fields it needs are numbers and the device is
    there ([sendMIDINoteOn] needs one of velocity and value), 0 included;
    otherwise it throws and the provider is left as it was, nothing sent
    and nothing stored. *)
Theorem V2_facades_validate_before_sending args p :
  (fst (V2.sendMIDICC args p) = Ok tt
   ↔ is_number (a_channel args) = true ∧ is_number (a_cc args) = true
     ∧ is_number (a_value args) = true ∧ is_Some (a_device args))
  ∧ (fst (V2.sendMIDINoteOn args p) = Ok tt
     ↔ is_number (a_channel args) = true ∧ is_number (a_pitch args) = true
       ∧ (is_number (a_velocity args) = true ∨ is_number (a_value args) = true)
       ∧ is_Some (a_device args))
  ∧ (fst (V2.sendMIDINoteOff args p) = Ok tt
     ↔ is_number (a_channel args) = true ∧ is_number (a_pitch args) = true
       ∧ is_Some (a_device args))
  ∧ (fst (V2.sendMIDICC args p) ≠ Ok tt → snd (V2.sendMIDICC args p) = p)
  ∧ (fst (V2.sendMIDINoteOn args p) ≠ Ok tt → snd (V2.sendMIDINoteOn args p) = p)
  ∧ (fst (V2.sendMIDINoteOff args p) ≠ Ok tt → snd (V2.sendMIDINoteOff args p) = p).
Proof.
  unfold V2.sendMIDICC, V2.sendMIDINoteOn, V2.sendMIDINoteOff.
  split_args args; simpl; run_message; simpl;
    repeat split; try done; try tauto; try (left; reflexivity); try (right; reflexivity);
    refute.
Qed.

Lemma V2_facades_validate_before_sending_witness :
  let p := Samples.granted Samples.input_without_open "in1" in
  let args :=
    {| a_channel := Some 1; a_cc := Some 64; a_pitch := None; a_value := None;
       a_velocity := None; a_device := Some (Samples.output "out1") |} in
  snd (V2.sendMIDICC args p) = p.
Proof.
  intros p args.
  apply (proj1 (proj2 (proj2 (proj2 (V2_facades_validate_before_sending args p))))).
  simpl. discriminate.
Defined.

Local Ltac case_truthy :=
  repeat match goal with
         | |- context [truthy ?c] =>
             let E := fresh "E" in
             destruct (truthy c) eqn:E; simpl; rewrite ?E; simpl
         end.

(** X12.  The older facades test presence by truthiness: each one returns
    normally exactly when the fields it needs are numbers other than 0 and
    the device is there ([sendMIDINoteOn] needs [velocity || value] other
    than 0); otherwise it throws and the provider is left as it was. *)
Theorem V1_facades_validate_before_sending args p :
  (fst (V1.sendMIDICC args p) = Ok tt
   ↔ truthy_opt (a_channel args) = true ∧ truthy_opt (a_cc args) = true
     ∧ truthy_opt (a_value args) = true ∧ is_Some (a_device args))
  ∧ (fst (V1.sendMIDINoteOn args p) = Ok tt
     ↔ truthy_opt (a_channel args) = true ∧ truthy_opt (a_pitch args) = true
       ∧ truthy_opt (or_opt (a_velocity args) (a_value args)) = true
       ∧ is_Some (a_device args))
  ∧ (fst (V1.sendMIDINoteOff args p) = Ok tt
     ↔ truthy_opt (a_channel args) = true ∧ truthy_opt (a_pitch args) = true
       ∧ is_Some (a_device args))
  ∧ (fst (V1.sendMIDICC args p) ≠ Ok tt → snd (V1.sendMIDICC args p) = p)
  ∧ (fst (V1.sendMIDINoteOn args p) ≠ Ok tt → snd (V1.sendMIDINoteOn args p) = p)
  ∧ (fst (V1.sendMIDINoteOff args p) ≠ Ok tt → snd (V1.sendMIDINoteOff args p) = p).
Proof.
  unfold V1.sendMIDICC, V1.sendMIDINoteOn, V1.sendMIDINoteOff.
  split_args args; simpl; unfold or_opt; simpl; case_truthy; simpl;
    rewrite ?sendMIDIMessage_agree by reflexivity; simpl;
    repeat split; try done; try tauto; refute.
Qed.

Lemma V1_facades_validate_before_sending_witness :
  let p := Samples.granted Samples.input_without_open "in1" in
  let args := Samples.cc_args 0 64 100 (Samples.output "out1") in
  snd (V1.sendMIDICC args p) = p.
Proof.
  intros p args.
  apply (proj1 (proj2 (proj2 (proj2 (V1_facades_validate_before_sending args p))))).
  simpl. discriminate.
Defined.

(** X13.  What the older revision accepts, the newer one treats the same
    way: when an older facade returns normally, the newer facade returns
    the same result and leaves the same provider state. *)
Theorem V2_does_what_V1_accepts args p :
  (fst (V1.sendMIDICC args p) = Ok tt → V2.sendMIDICC args p = V1.sendMIDICC args p)
  ∧ (fst (V1.sendMIDINoteOn args p) = Ok tt → V2.sendMIDINoteOn args p = V1.sendMIDINoteOn args p)
  ∧ (fst (V1.sendMIDINoteOff args p) = Ok tt
     → V2.sendMIDINoteOff args p = V1.sendMIDINoteOff args p).
Proof.
  unfold V1.sendMIDICC, V1.sendMIDINoteOn, V1.sendMIDINoteOff,
    V2.sendMIDICC, V2.sendMIDINoteOn, V2.sendMIDINoteOff.
  split_args args; simpl; unfold or_opt; simpl; case_truthy; simpl;
    rewrite ?sendMIDIMessage_agree by reflexivity; simpl;
    repeat split; try done; intros _; run_message; reflexivity.
Qed.

Lemma V2_does_what_V1_accepts_witness :
  let p := Samples.granted Samples.input_without_open "in1" in
  let args := Samples.cc_args 1 64 100 (Samples.output "out1") in
  V2.sendMIDICC args p = V1.sendMIDICC args p.
Proof.
  simpl. apply (V2_does_what_V1_accepts
                  (Samples.cc_args 1 64 100 (Samples.output "out1"))). reflexivity.
Defined.

(** The run of the newer [sendMIDICC] on numbers and a device. *)
Lemma V2_sendMIDICC_run channel cc value d p :
  ∃ p',
    V2.sendMIDICC (Samples.cc_args channel cc value d) p = (Ok tt, p')
    ∧ sent (effects p') = sent (effects p) ++ [(port_id (out_port d), [0xB0 + channel; cc; value])]
    ∧ warnings (effects p') = warnings (effects p)
    ∧ values p'
      = useStoreData.set
          {| useStoreData.u_channel := channel; useStoreData.u_cc := cc;
             useStoreData.u_value := value; useStoreData.u_device := out_port d |}
          (values p).
Proof.
  unfold V2.sendMIDICC; simpl.
  match goal with |- context [V2.sendMIDIMessage ?props ?w] =>
    pose proof (V2_sendMIDIMessage_device props d w eq_refl) as Hs;
    assert (warnings (snd (V2.sendMIDIMessage props w)) = warnings w) as Hw
      by (unfold V2.sendMIDIMessage, send; simpl; by destruct (send_raises d _));
    destruct (V2.sendMIDIMessage props w) as [? w'] end.
  eexists. split; [reflexivity|]. simpl in *.
  split; [|split; done].
  rewrite Hs, V2_msg; simpl. unfold dataByte1, dataByte2; simpl. reflexivity.
Qed.

(** X14.  The newer [sendMIDICC], given numbers and a device, calls [send]
    once with [0xB0 + channel, cc, value], prints no warning, returns
    normally and stores the value, whether [send] raised or not: a message
    the device refused is stored all the same, and [getMIDIValue] answers
    it for a channel and a controller number other than 0. *)
Theorem V2_sendMIDICC_stores_also_when_send_raises channel cc value d p :
  ∃ p',
    V2.sendMIDICC (Samples.cc_args channel cc value d) p = (Ok tt, p')
    ∧ sent (effects p') = sent (effects p) ++ [(port_id (out_port d), [0xB0 + channel; cc; value])]
    ∧ warnings (effects p') = warnings (effects p)
    ∧ values p'
      = useStoreData.set
          {| useStoreData.u_channel := channel; useStoreData.u_cc := cc;
             useStoreData.u_value := value; useStoreData.u_device := out_port d |}
          (values p)
    ∧ (channel ≠ 0 → cc ≠ 0 →
       useStoreData.get
         (Some {| useStoreData.q_channel := Some channel; useStoreData.q_cc := Some cc;
                  useStoreData.q_device := None |}) (values p')
       = Ok (useStoreData.Value (Some value))).
Proof.
  destruct (V2_sendMIDICC_run channel cc value d p) as (p' & Hrun & Hsent & Hwarn & Hval).
  exists p'. split; [done|]. split; [done|]. split; [done|]. split; [done|].
  intros Hch Hcc. rewrite Hval.
  apply (get_after_set
           {| useStoreData.u_channel := channel; useStoreData.u_cc := cc;
              useStoreData.u_value := value; useStoreData.u_device := out_port d |});
    done.
Qed.

Lemma V2_sendMIDICC_stores_also_when_send_raises_witness :
  let refusing := {| out_port := Samples.port "out1"; send_raises := λ _, Some TypeError |} in
  let p := Samples.granted Samples.input_without_open "in1" in
  ∃ p',
    V2.sendMIDICC (Samples.cc_args 1 64 100 refusing) p = (Ok tt, p')
    ∧ useStoreData.get
        (Some {| useStoreData.q_channel := Some 1; useStoreData.q_cc := Some 64;
                 useStoreData.q_device := None |}) (values p')
      = Ok (useStoreData.Value (Some 100)).
Proof.
  simpl.
  destruct (V2_sendMIDICC_stores_also_when_send_raises 1 64 100
              {| out_port := Samples.port "out1"; send_raises := λ _, Some TypeError |}
              (Samples.granted Samples.input_without_open "in1"))
    as (p' & Hrun & _ & _ & _ & Hget).
  exists p'. split; [exact Hrun | apply Hget; lia].
Defined.

(** X15.  No send facade of either revision touches [midiAccess], the two
    registries or the input objects; the note facades leave the value
    store as it is, so only [sendMIDICC] ever writes to it. *)
Theorem facades_leave_registries_and_notes_leave_store args p :
  same_registries p (snd (V1.sendMIDICC args p))
  ∧ same_registries p (snd (V2.sendMIDICC args p))
  ∧ (same_registries p (snd (V1.sendMIDINoteOn args p))
     ∧ values (snd (V1.sendMIDINoteOn args p)) = values p)
  ∧ (same_registries p (snd (V1.sendMIDINoteOff args p))
     ∧ values (snd (V1.sendMIDINoteOff args p)) = values p)
  ∧ (same_registries p (snd (V2.sendMIDINoteOn args p))
     ∧ values (snd (V2.sendMIDINoteOn args p)) = values p)
  ∧ (same_registries p (snd (V2.sendMIDINoteOff args p))
     ∧ values (snd (V2.sendMIDINoteOff args p)) = values p).
Proof.
  unfold same_registries, V1.sendMIDICC, V1.sendMIDINoteOn, V1.sendMIDINoteOff,
    V2.sendMIDICC, V2.sendMIDINoteOn, V2.sendMIDINoteOff.
  split_args args; simpl; unfold or_opt; simpl; case_truthy; simpl;
    rewrite ?sendMIDIMessage_agree by reflexivity; simpl;
    run_message; simpl; repeat split; reflexivity.
Qed.

(** X16.  An array of outputs, in the older [sendMIDIMessage]: the outputs
    are served in order and nothing is caught, so the first [send] that
    raises ends the call with that exception; the outputs before it got
    the message, the outputs after it get nothing, and nothing is printed
    even with [log] set. *)
Theorem V1_sendMIDIMessage_array_stops_at_first_failure props before d after e w :
  V1.device props = Some (V1.Several (before ++ Some d :: after)) →
  (∀ d', Some d' ∈ before → send_raises d' (V1.msg props) = None) →
  send_raises d (V1.msg props) = Some e →
  ∃ w',
    V1.sendMIDIMessage props w = (Throw e, w')
    ∧ sent w'
      = sent w
        ++ ((λ d', (port_id (out_port d'), V1.msg props)) <$> omap (λ d', d') before)
        ++ [(port_id (out_port d), V1.msg props)]
    ∧ warnings w' = warnings w.
Proof.
  intros Hd Hbefore Hraises. unfold V1.sendMIDIMessage. rewrite Hd.
  assert (∀ l1 l2 w0,
            V1.forEach_send (l1 ++ l2) (V1.msg props) w0
            = match V1.forEach_send l1 (V1.msg props) w0 with
              | (Ok _, w1) => V1.forEach_send l2 (V1.msg props) w1
              | (Throw e', w1) => (Throw e', w1)
              end) as Happ.
  { induction l1 as [|[x|] l1 IH]; intros l2 w0; simpl.
    - done.
    - destruct (send x (V1.msg props) w0) as [[?|?] ?]; [apply IH | done].
    - apply IH. }
  rewrite Happ, V1_forEach_send_all by done. simpl.
  unfold send; simpl. rewrite Hraises. eexists. split; [reflexivity|]. simpl.
  by rewrite <- app_assoc.
Qed.

Lemma V1_sendMIDIMessage_array_stops_at_first_failure_witness :
  let refusing := {| out_port := Samples.port "out2"; send_raises := λ _, Some TypeError |} in
  let props :=
    {| V1.channel := Some 1; V1.cc := Some 64; V1.value := Some 100; V1.velocity := None;
       V1.pitch := None;
       V1.device := Some (V1.Several
                            ([Some (Samples.output "out1")]
                             ++ Some refusing :: [Some (Samples.output "out3")]));
       V1.type := None; V1.log := true |} in
  ∃ w', V1.sendMIDIMessage props quiet = (Throw TypeError, w')
        ∧ sent w' = [("out1", [0xB1; 64; 100]); ("out2", [0xB1; 64; 100])]
        ∧ warnings w' = [].
Proof.
  intros refusing props.
  destruct (V1_sendMIDIMessage_array_stops_at_first_failure props
              [Some (Samples.output "out1")] refusing [Some (Samples.output "out3")]
              TypeError quiet) as (w' & Hrun & Hsent & Hwarn).
  - reflexivity.
  - intros d' Hd'. apply list_elem_of_singleton in Hd'. by simplify_eq.
  - reflexivity.
  - exists w'. split; [exact Hrun|]. split; [exact Hsent | exact Hwarn].
Defined.

End EncoderMore.

(** ** Incoming messages *)

Section IncomingMessages.

Import Incoming.

Lemma string_append_assoc (s1 s2 s3 : string) : (s1 +:+ s2) +:+ s3 = s1 +:+ (s2 +:+ s3).
Proof.
  induction s1 as [|c s1 IH]; [reflexivity|].
  change (String c ((s1 +:+ s2) +:+ s3) = String c (s1 +:+ (s2 +:+ s3))). by f_equal.
Qed.

Lemma string_append_empty (s : string) : s +:+ "" = s.
Proof.
  induction s as [|c s IH]; [reflexivity|].
  change (String c (s +:+ "") = String c s). by f_equal.
Qed.

Lemma string_length_append (s1 s2 : string) :
  String.length (s1 +:+ s2) = (String.length s1 + String.length s2)%nat.
Proof.
  induction s1 as [|c s1 IH]; [reflexivity|].
  change (S (String.length (s1 +:+ s2)) = S (String.length s1 + String.length s2)).
  by f_equal.
Qed.

(** The text of a byte array, token after token. *)
Lemma str_tokens (l : list Byte.byte) (acc : string) :
  fold_left (λ str b, str +:+ ("0x" +:+ (toString16 b +:+ " "))) l acc
  = acc +:+ foldr (λ b rest, ("0x" +:+ (toString16 b +:+ " ")) +:+ rest) "" l.
Proof.
  revert acc. induction l as [|b l IH]; intros acc; cbn [fold_left foldr].
  - by rewrite string_append_empty.
  - rewrite IH. apply string_append_assoc.
Qed.

Lemma read_token (b : Byte.byte) (rest : string) :
  read (("0x" +:+ (toString16 b +:+ " ")) +:+ rest) = b :: read rest.
Proof. destruct b; reflexivity. Qed.

Lemma token_length (b : Byte.byte) :
  (4 ≤ String.length ("0x" +:+ (toString16 b +:+ " ")) ≤ 5)%nat.
Proof. destruct b; simpl; lia. Qed.

(** X17.  [onMIDIMessage] hands on the data and the time stamp, and its
    text determines the data: reading the tokens [0x.. ] back gives the
    bytes, so two messages with the same text have the same bytes; each
    byte takes 4 or 5 characters, and no data gives the empty text. *)
Theorem onMIDIMessage_text_reads_back event :
  m_data (onMIDIMessage event) = data event
  ∧ m_timeStamp (onMIDIMessage event) = timeStamp event
  ∧ read (str (onMIDIMessage event)) = data event
  ∧ (∀ event', str (onMIDIMessage event') = str (onMIDIMessage event) →
       data event' = data event)
  ∧ (4 * length (data event) ≤ String.length (str (onMIDIMessage event))
     ≤ 5 * length (data event))%nat.
Proof.
  assert (∀ l, read (fold_left (λ str b, str +:+ ("0x" +:+ (toString16 b +:+ " "))) l "") = l)
    as Hread.
  { intros l. rewrite str_tokens.
    change (read (foldr (λ b rest, ("0x" +:+ (toString16 b +:+ " ")) +:+ rest) "" l) = l).
    induction l as [|b l IH]; [done|]. cbn [foldr]. by rewrite read_token, IH. }
  split; [done|]. split; [done|]. split; [apply Hread|]. split.
  - intros event' Heq. rewrite <- (Hread (data event')), <- (Hread (data event)).
    unfold onMIDIMessage in Heq; simpl in Heq. by rewrite Heq.
  - unfold onMIDIMessage; cbn [str]. rewrite str_tokens.
    change ("" +:+ ?x) with x.
    induction (data event) as [|b l IH]; [simpl; lia|].
    cbn [foldr length]. rewrite string_length_append.
    pose proof (token_length b). lia.
Qed.

Lemma onMIDIMessage_text_reads_back_witness :
  data {| data := [Byte.x90; Byte.x3c; Byte.x64]; timeStamp := 5 |}
  = data {| data := [Byte.x90; Byte.x3c; Byte.x64]; timeStamp := 0 |}.
Proof.
  apply (onMIDIMessage_text_reads_back
           {| data := [Byte.x90; Byte.x3c; Byte.x64]; timeStamp := 0 |}).
  reflexivity.
Defined.

Example onMIDIMessage_note_on :
  str (onMIDIMessage {| data := [Byte.x90; Byte.x3c; Byte.x05]; timeStamp := 0 |})
  = "0x90 0x3c 0x5 ".
Proof. reflexivity. Qed.

End IncomingMessages.

(** ** Opening, adding and removing inputs; outputs; the session *)

Section Connections.

Import Incoming.

Implicit Types (h : Registry.ref → MIDIInput) (p : Provider).

Lemma openMIDIInput_same input cb h :
  V1.openMIDIInput input cb h = V2.openMIDIInput input cb h.
Proof. reflexivity. Qed.

(** What [openMIDIInput] does when it goes past its guard. *)
Lemma openMIDIInput_attempt input cb h :
  port_connection (in_port (h input)) ≠ "open" ∨ is_Some cb →
  fst (V2.openMIDIInput input cb h)
  = match call_async (open (h input)) with
    | Ok _ => Fulfilled input
    | Throw e => Rejected e
    end
  ∧ ∀ r, snd (V2.openMIDIInput input cb h) r
         = if decide (r = input)
           then assign_handler (match cb with Some f => Wrapped f | None => PassThrough end)
                  (h input)
           else h r.
Proof.
  intros Hcalled. unfold V2.openMIDIInput.
  assert (String.eqb (port_connection (in_port (h input))) "open"
          && negb (bool_decide (is_Some cb)) = false) as ->.
  { destruct Hcalled as [Hne|Hcb].
    - by destruct (String.eqb_spec (port_connection (in_port (h input))) "open").
    - rewrite bool_decide_eq_true_2 by done. apply andb_false_r. }
  destruct cb as [f|]; unfold insert, fn_insert; simpl;
    rewrite ?decide_True by done; simpl;
    destruct (call_async (open (h input))); simpl; (split; [done|]);
    intros r; destruct (decide (r = input)) as [->|Hne];
    rewrite ?decide_True by done; rewrite ?decide_False by done; done.
Qed.

(** What it does when the guard holds it back. *)
Lemma openMIDIInput_guard input cb h :
  ¬ (port_connection (in_port (h input)) ≠ "open" ∨ is_Some cb) →
  V2.openMIDIInput input cb h = (Fulfilled input, h).
Proof.
  intros Hguard. unfold V2.openMIDIInput.
  destruct (String.eqb_spec (port_connection (in_port (h input))) "open") as [?|Hne];
    [|exfalso; apply Hguard; by left].
  destruct cb as [f|]; [exfalso; apply Hguard; right; by eexists | done].
Qed.

(** X18.  [openMIDIInput], the same in both revisions: an input that is
    already open and comes without callback is returned as it is, [open]
    not called and its handler untouched; otherwise the handler is
    installed before [open] is tried (the wrapper of the callback, or the
    pass-through) and stays whether [open] succeeds or not, the promise
    fulfils with the input exactly when [open] does, and is rejected with
    what [open] raised.  The code assigns no other object. *)
Theorem openMIDIInput_installs_handler_then_opens input cb h :
  V1.openMIDIInput input cb h = V2.openMIDIInput input cb h
  ∧ (port_connection (in_port (h input)) = "open" → cb = None →
     V2.openMIDIInput input cb h = (Fulfilled input, h))
  ∧ (port_connection (in_port (h input)) ≠ "open" ∨ is_Some cb →
     onmidimessage (snd (V2.openMIDIInput input cb h) input)
     = match cb with Some f => Wrapped f | None => PassThrough end
     ∧ (fst (V2.openMIDIInput input cb h) = Fulfilled input ↔ open (h input) = Resolves)
     ∧ (open (h input) = Missing → fst (V2.openMIDIInput input cb h) = Rejected TypeError)
     ∧ (∀ e, open (h input) = Rejects e → fst (V2.openMIDIInput input cb h) = Rejected e))
  ∧ (∀ r, r ≠ input → snd (V2.openMIDIInput input cb h) r = h r).
Proof.
  split; [reflexivity|]. split.
  { intros Hopen ->. unfold V2.openMIDIInput. by rewrite Hopen. }
  destruct (decide (port_connection (in_port (h input)) ≠ "open" ∨ is_Some cb))
    as [Hcalled|Hguard].
  - destruct (openMIDIInput_attempt input cb h Hcalled) as [Hfst Hsnd].
    split.
    { intros _. rewrite Hfst, Hsnd, decide_True by done. split; [done|].
      destruct (open (h input)); simpl; repeat split; try done; by intros ? [= ->]. }
    intros r Hne. by rewrite Hsnd, decide_False.
  - split; [done|]. by rewrite openMIDIInput_guard.
Qed.

Lemma openMIDIInput_installs_handler_then_opens_witness :
  onmidimessage (snd (V2.openMIDIInput 0%nat (Some 7%nat)
                        (λ _, Samples.input_without_open "in1")) 0%nat)
  = Wrapped 7%nat.
Proof.
  apply (openMIDIInput_installs_handler_then_opens 0%nat (Some 7%nat)
           (λ _, Samples.input_without_open "in1")).
  left. simpl. discriminate.
Defined.

(** X19.  After [openMIDIInput] with a callback, a message that arrives on
    the input is given to the callback once, as [{relVal:
    'mostRecentMessage', input}] with the decoded message, also when the
    input was already open and also when [open] failed; after an opening
    without callback of an input that was not open, nobody is called. *)
Theorem opened_input_calls_back input cb h msg :
  (∀ f, cb = Some f →
     deliver (onmidimessage (snd (V2.openMIDIInput input cb h) input)) msg
     = [(f, {| relVal := "mostRecentMessage"; input := onMIDIMessage msg |})])
  ∧ (cb = None → port_connection (in_port (h input)) ≠ "open" →
     deliver (onmidimessage (snd (V2.openMIDIInput input cb h) input)) msg = []).
Proof.
  split.
  - intros f ->.
    destruct (openMIDIInput_attempt input (Some f) h) as [_ Hsnd]; [right; by eexists|].
    by rewrite Hsnd, decide_True.
  - intros -> Hne.
    destruct (openMIDIInput_attempt input None h) as [_ Hsnd]; [by left|].
    by rewrite Hsnd, decide_True.
Qed.

Lemma opened_input_calls_back_witness :
  deliver (onmidimessage (snd (V2.openMIDIInput 0%nat (Some 7%nat)
                                 (λ _, Samples.input_without_open "in1")) 0%nat))
          {| data := [Byte.x90; Byte.x3c; Byte.x64]; timeStamp := 0 |}
  = [(7%nat,
      {| relVal := "mostRecentMessage";
         input := {| m_data := [Byte.x90; Byte.x3c; Byte.x64]; m_timeStamp := 0;
                     str := "0x90 0x3c 0x64 " |} |})].
Proof.
  apply (opened_input_calls_back 0%nat (Some 7%nat) (λ _, Samples.input_without_open "in1")).
  reflexivity.
Defined.

(** X20.  [removeMIDIInput] answers [true] for every input and in every
    state, also for an input that was never added and also when [close]
    is missing or rejects: the failure of [close] is the rejection of a
    promise nobody awaits.  Afterwards no entry with the id of the input is
    in the registry, the entries with another id are all there, and the
    store and the access are as before. *)
Theorem removeMIDIInput_always_succeeds input p :
  let r := Shared.removeMIDIInput input p in
  fst r = true
  ∧ Registry.entries_with_id (input_id (heap p)) (input_id (heap p) input)
      (connectedMIDIInputs (snd r)) = []
  ∧ (∀ x, x ∈ connectedMIDIInputs (snd r)
          ↔ x ∈ connectedMIDIInputs p ∧ input_id (heap p) x ≠ input_id (heap p) input)
  ∧ unhandled (effects (snd r))
    = unhandled (effects p)
      ++ match close (heap p input) with
         | Resolves => []
         | Missing => [TypeError]
         | Rejects e => [e]
         end
  ∧ values (snd r) = values p
  ∧ midiAccess (snd r) = midiAccess p.
Proof.
  simpl. split; [done|]. split; [apply dispatch_remove_entries|].
  split; [intros x; apply dispatch_remove_elem|]. split; [|done].
  unfold Shared.closeMIDIInput.
  destruct (close (heap p input)); simpl; by rewrite ?app_nil_r.
Qed.

(** X21.  The newer [addMIDIInput], with access granted and an input whose
    [open] succeeds: it answers [true], the input is in the registry, the
    registry has no object twice, and adding the same input again leaves
    the registry exactly as it is. *)
Theorem V2_addMIDIInput_registers_once input cb p :
  is_Some (midiAccess p) →
  open (heap p input) = Resolves →
  let r := V2.addMIDIInput input cb p in
  fst r = true
  ∧ input ∈ connectedMIDIInputs (snd r)
  ∧ NoDup (connectedMIDIInputs (snd r))
  ∧ fst (V2.addMIDIInput input cb (snd r)) = true
  ∧ connectedMIDIInputs (snd (V2.addMIDIInput input cb (snd r)))
    = connectedMIDIInputs (snd r).
Proof.
  intros [a Ha] Hopen.
  assert (∀ q, midiAccess q = Some a → open (heap q input) = Resolves →
            fst (V2.addMIDIInput input cb q) = true
            ∧ connectedMIDIInputs (snd (V2.addMIDIInput input cb q))
              = Registry.Set_from [] (connectedMIDIInputs q ++ [input])
            ∧ midiAccess (snd (V2.addMIDIInput input cb q)) = Some a
            ∧ open (heap (snd (V2.addMIDIInput input cb q)) input) = Resolves) as Hadd.
  { intros q Hq Hq_open.
    unfold V2.addMIDIInput. rewrite Hq.
    assert (fst (V2.openMIDIInput input cb (heap q)) = Fulfilled input
            ∧ open (snd (V2.openMIDIInput input cb (heap q)) input) = Resolves)
      as [Hfst Hsame].
    { destruct (decide (port_connection (in_port (heap q input)) ≠ "open" ∨ is_Some cb))
        as [Hcalled|Hnot].
      - destruct (openMIDIInput_attempt input cb (heap q) Hcalled) as [-> ->].
        rewrite Hq_open, decide_True by done. done.
      - by rewrite openMIDIInput_guard. }
    destruct (V2.openMIDIInput input cb (heap q)) as [promise h'] eqn:Hrun.
    simpl in Hfst, Hsame. subst promise. simpl. by rewrite Hsame. }
  destruct (Hadd p Ha Hopen) as (Hfst & Hreg & Hacc & Hop).
  simpl. split; [done|]. split.
  { rewrite Hreg. apply Set_from_elem. right. apply elem_of_app. right. by left. }
  split; [rewrite Hreg; apply Set_from_NoDup, NoDup_nil_2|].
  destruct (Hadd (snd (V2.addMIDIInput input cb p)) Hacc Hop) as (Hfst' & Hreg' & _).
  split; [done|]. rewrite Hreg', Hreg.
  rewrite Set_from_app.
  rewrite (Set_from_fresh [] (Registry.Set_from [] (connectedMIDIInputs p ++ [input])))
    by (simpl; apply Set_from_NoDup, NoDup_nil_2).
  simpl. rewrite bool_decide_eq_true_2; [done|].
  apply Set_from_elem. right. apply elem_of_app. right. by left.
Qed.

Lemma V2_addMIDIInput_registers_once_witness :
  let working :=
    {| in_port := Samples.port "in1"; onmidimessage := NoHandler;
       open := Resolves; close := Resolves |} in
  fst (V2.addMIDIInput 0%nat None (Samples.granted (λ _, working) "in1")) = true.
Proof.
  simpl.
  apply (V2_addMIDIInput_registers_once 0%nat None
           (Samples.granted
              (λ _, {| in_port := Samples.port "in1"; onmidimessage := NoHandler;
                       open := Resolves; close := Resolves |}) "in1")).
  - by eexists.
  - reflexivity.
Defined.

(** X29.  The registry of outputs in the newer revision, once access is
    granted: [addMIDIOutput] answers [true], the output is in the registry, which has no object
    twice; [removeMIDIOutput] then answers [true] and leaves no entry with
    the id of the output; neither touches the registry of inputs, the
    store or the platform. *)
Theorem outputs_are_added_and_removed outs output p :
  is_Some (midiAccess p) →
  let added := V2_provider.addMIDIOutput outs output p in
  let removed := Shared.removeMIDIOutput outs output (snd added) in
  fst added = true
  ∧ output ∈ connectedMIDIOutputs (snd added)
  ∧ NoDup (connectedMIDIOutputs (snd added))
  ∧ fst removed = true
  ∧ Registry.entries_with_id (Shared.output_id outs) (Shared.output_id outs output)
      (connectedMIDIOutputs (snd removed)) = []
  ∧ connectedMIDIInputs (snd removed) = connectedMIDIInputs p
  ∧ values (snd removed) = values p
  ∧ effects (snd removed) = effects p.
Proof.
  intros [a Ha]. unfold V2_provider.addMIDIOutput. rewrite Ha. simpl.
  split; [done|]. split; [apply dispatch_add_elem; by right|].
  split; [apply dispatch_add_NoDup|]. split; [done|].
  split; [apply dispatch_remove_entries | done].
Qed.

Lemma outputs_are_added_and_removed_witness :
  fst (V2_provider.addMIDIOutput (λ _, Samples.output "out1") 0%nat
         (Samples.granted Samples.input_without_open "in1")) = true.
Proof.
  apply (outputs_are_added_and_removed (λ _, Samples.output "out1") 0%nat
           (Samples.granted Samples.input_without_open "in1")).
  by eexists.
Defined.

(** X22.  The registries open with the access.  On a provider that was
    just mounted, adding an input (in both revisions) or an output answers
    [false] and changes nothing.  The newer [initializeMIDI] never rejects
    when it has an [onError]: a platform without MIDI and a refused
    request are each reported once to [onError], and adding still answers
    [false]; a granted request is not reported, [midiInputs] and
    [midiOutputs] become the ports of the access in their order, and from
    then on adding an output answers [true]. *)
Theorem registries_open_with_access h onError nav outs r cb :
  let st := Session.mounted h in
  let st' := snd (Session.V2_initializeMIDI (Some onError) nav st) in
  V1.addMIDIInput None r cb (Session.provider st) = (false, Session.provider st)
  ∧ V2.addMIDIInput r cb (Session.provider st) = (false, Session.provider st)
  ∧ V2_provider.addMIDIOutput outs r (Session.provider st) = (false, Session.provider st)
  ∧ fst (Session.V2_initializeMIDI (Some onError) nav st) = Fulfilled tt
  ∧ match nav with
    | Session.Supported (Fulfilled a) =>
        Session.reported st' = []
        ∧ Session.midiInputs st' = snd <$> Session.inputs a
        ∧ Session.midiOutputs st' = snd <$> Session.outputs a
        ∧ V2_provider.addMIDIOutput outs r (Session.provider st')
          = (true, Shared.with_outputs [r] (Session.provider st'))
    | Session.Supported (Rejected e) =>
        Session.reported st' = [(onError, e)]
        ∧ Session.provider st' = Session.provider st
        ∧ V2.addMIDIInput r cb (Session.provider st') = (false, Session.provider st')
    | Session.Unsupported =>
        Session.reported st' = [(onError, Error "MIDI is not supported in this browser.")]
        ∧ Session.provider st' = Session.provider st
        ∧ V2.addMIDIInput r cb (Session.provider st') = (false, Session.provider st')
    end.
Proof.
  simpl. repeat split; try done; destruct nav as [|[a|e]]; done.
Qed.

(** X23.  The older [initializeMIDI], called on a provider that was just
    mounted: without MIDI in the platform, or with a refused request, its
    promise is rejected and the state is as before; with a granted request
    the state holds the ports of the access, but the promise fulfils with
    the values of before the grant, no access and two empty lists,
    whatever the platform granted. *)
Theorem V1_initializeMIDI_resolves_with_old_state h nav :
  let st := Session.mounted h in
  match nav with
  | Session.Supported (Fulfilled a) =>
      fst (Session.V1_initializeMIDI nav st) = Fulfilled (None, [], [])
      ∧ Session.midiInputs (snd (Session.V1_initializeMIDI nav st)) = snd <$> Session.inputs a
      ∧ Session.midiOutputs (snd (Session.V1_initializeMIDI nav st)) = snd <$> Session.outputs a
      ∧ is_Some (midiAccess (Session.provider (snd (Session.V1_initializeMIDI nav st))))
  | Session.Supported (Rejected e) =>
      Session.V1_initializeMIDI nav st = (Rejected e, st)
  | Session.Unsupported =>
      Session.V1_initializeMIDI nav st
      = (Rejected (Error "MIDI is not supported in this browser."), st)
  end.
Proof. destruct nav as [|[a|e]]; simpl; repeat split; by eexists. Qed.

End Connections.

(** ** The accessor hooks *)

Section Hooks.

Import V2_hooks.

(** X24.  [useMIDIContext] returns what the selector selects from the
    current context value, at every render: the two refs it keeps start
    equal and stay equal, and hold the selection afterwards. *)
Theorem useMIDIContext_returns_selection {C} (selector : C → option nat) (value : C) r :
  latestSelectedStateRef r = latestSelectedResultRef r →
  fst (useMIDIContext selector value r) = selector value
  ∧ latestSelectedStateRef (snd (useMIDIContext selector value r)) = selector value
  ∧ latestSelectedResultRef (snd (useMIDIContext selector value r)) = selector value.
Proof.
  intros Hsame. unfold useMIDIContext.
  case_bool_decide as Hne; simpl; [done|].
  by rewrite <- Hsame, <- Hne.
Qed.

Lemma useMIDIContext_returns_selection_witness :
  fst (useMIDIContext (λ cv : nat, Some cv) 5%nat fresh) = Some 5%nat.
Proof.
  apply (useMIDIContext_returns_selection (λ cv : nat, Some cv) 5%nat fresh). reflexivity.
Defined.

Lemma pick_first_named {A} (name_of : A → string) s before (d : A) after :
  name_of d = s → (∀ d', d' ∈ before → name_of d' ≠ s) →
  pick name_of (ByName s) (before ++ d :: after) = Some d.
Proof.
  intros Hd Hbefore. simpl. rewrite list.filter_app.
  replace (filter (λ d0, name_of d0 = s) before) with (@nil A).
  - simpl. rewrite filter_cons, decide_True by done. done.
  - symmetry. induction before as [|x before IH]; [done|].
    rewrite filter_cons, decide_False by (apply Hbefore; left).
    apply IH. intros d' Hd'. apply Hbefore. by right.
Qed.

Lemma pick_none_named {A} (name_of : A → string) s (l : list A) :
  (∀ d, d ∈ l → name_of d ≠ s) → pick name_of (ByName s) l = None.
Proof.
  intros Hnone. simpl. induction l as [|x l IH]; [done|].
  rewrite filter_cons, decide_False by (apply Hnone; left).
  apply IH. intros d Hd. apply Hnone. by right.
Qed.

Lemma pick_none_index {A} (name_of : A → string) n (l : list A) :
  n < 0 ∨ Z.of_nat (length l) ≤ n → pick name_of (ByIndex n) l = None.
Proof.
  intros Hout. simpl. case_decide; [|done].
  apply lookup_ge_None. lia.
Qed.

(** X25.  Which output [useMIDIOutput] binds: by number, the output at
    that index, and none for an index that is negative or past the end; by
    name, the first output of that name, and none when no output has it.
    Without output the four functions it returns do nothing, whatever
    they are given: they do not validate, do not throw, send nothing and
    store nothing. *)
Theorem useMIDIOutput_binds_or_does_nothing midiOutputs :
  (∀ n, n < 0 ∨ Z.of_nat (length midiOutputs) ≤ n →
        does_nothing (useMIDIOutput (ByIndex n) midiOutputs))
  ∧ (∀ n d, 0 ≤ n → midiOutputs !! Z.to_nat n = Some d →
            useMIDIOutput (ByIndex n) midiOutputs = bound d)
  ∧ (∀ s, (∀ d, d ∈ midiOutputs → port_name (out_port d) ≠ s) →
          does_nothing (useMIDIOutput (ByName s) midiOutputs))
  ∧ (∀ s before d after,
       midiOutputs = before ++ d :: after →
       port_name (out_port d) = s →
       (∀ d', d' ∈ before → port_name (out_port d') ≠ s) →
       useMIDIOutput (ByName s) midiOutputs = bound d).
Proof.
  split; [|split; [|split]].
  - intros n Hout. unfold useMIDIOutput. by rewrite pick_none_index.
  - intros n d Hn Hd. unfold useMIDIOutput; simpl. by rewrite decide_True, Hd.
  - intros s Hnone. unfold useMIDIOutput. by rewrite pick_none_named.
  - intros s before d after -> Hd Hbefore. unfold useMIDIOutput.
    by rewrite (pick_first_named _ s before d after).
Qed.

Lemma useMIDIOutput_binds_or_does_nothing_witness :
  does_nothing (useMIDIOutput (ByIndex 1) [Samples.output "out1"]).
Proof.
  apply (useMIDIOutput_binds_or_does_nothing [Samples.output "out1"]). simpl. lia.
Defined.

(** X26.  The functions bound to an output by [useMIDIOutput] or
    [useMIDIActions] put that output under the command: a control change
    with numbers goes to the bound output when the command names none, and
    to the output of the command when it names one; it is stored under the
    id of the output it went to. *)
Theorem bound_device_yields_to_the_command d channel cc value own velocity pitch type log p :
  let command :=
    {| V2.channel := Some channel; V2.cc := Some cc; V2.value := Some value;
       V2.velocity := velocity; V2.pitch := pitch; V2.device := own;
       V2.type := type; V2.log := log |} in
  let target := nullish own d in
  useMIDIActions (Some d) = bound d
  ∧ ∃ p',
      sendMIDICC (bound d) command p = (Ok tt, p')
      ∧ sent (effects p')
        = sent (effects p) ++ [(port_id (out_port target), [0xB0 + channel; cc; value])]
      ∧ useStoreData.device_entry (values p') (port_id (out_port target)) channel cc
        = Some value.
Proof.
  simpl. split; [done|].
  destruct (V2_sendMIDICC_run channel cc value (nullish own d) p)
    as (p' & Hrun & Hsent & _ & Hval).
  exists p'. split; [|split; [done|]].
  - rewrite <- Hrun. unfold V2.sendMIDICC, args_of, with_device, Samples.cc_args; simpl.
    reflexivity.
  - rewrite Hval, device_entry_set. by rewrite decide_True.
Qed.

(** X27.  [useMIDI] gives a sender exactly when channel and cc are
    numbers, 0 included, with or without device.  The sender hands the
    output the message [sendMIDICC] would hand it, [0xB0 + channel, cc,
    value], and without device it sends nothing. *)
Theorem useMIDI_sender_sends_control_change :
  (∀ channel cc dev,
     ∃ send,
       useMIDI (Some {| p_channel := Some channel; p_cc := Some cc; p_device := dev |})
       = Sender send
       ∧ ∀ value w,
           match dev with
           | Some d =>
               sent (send value w)
               = sent w ++ [(port_id (out_port d), [0xB0 + channel; cc; value])]
           | None => send value w = w
           end)
  ∧ (∀ props, props ≫= p_channel = None ∨ props ≫= p_cc = None → useMIDI props = Context).
Proof.
  split.
  - intros channel cc dev. unfold useMIDI; simpl. eexists. split; [reflexivity|].
    intros value w. destruct dev as [d|]; [|done].
    rewrite (V2_sendMIDIMessage_device _ d) by done. rewrite V2_msg; simpl.
    unfold dataByte1, dataByte2; simpl. reflexivity.
  - intros props [Hnone|Hnone]; unfold useMIDI; rewrite Hnone; simpl; [done|].
    by rewrite andb_false_r.
Qed.

Lemma useMIDI_sender_sends_control_change_witness :
  useMIDI (Some {| p_channel := None; p_cc := Some 64; p_device := None |}) = Context.
Proof.
  apply (proj2 useMIDI_sender_sends_control_change). left. reflexivity.
Defined.

(** X28.  [useMIDIInput] answers [null] exactly when no input matches the
    request or the input that matches is closed and has no [open]; it
    calls [open] on the input exactly when the input is closed and has an
    [open], and answers the input then, also when that [open] rejects,
    which nobody sees; an input that is not closed is answered without
    being opened. *)
Theorem useMIDIInput_opens_closed_inputs r midiInputs h w :
  let found := pick (λ i, port_name (in_port (h i))) r midiInputs in
  let result := useMIDIInput r midiInputs h w in
  (result.1.1 = None
   ↔ found = None
     ∨ ∃ i, found = Some i ∧ port_connection (in_port (h i)) = "closed"
            ∧ open (h i) = Missing)
  ∧ (∀ i, result.1.1 = Some i → found = Some i)
  ∧ (∀ i, i ∈ result.1.2
          ↔ found = Some i ∧ port_connection (in_port (h i)) = "closed"
            ∧ open (h i) ≠ Missing)
  ∧ (∀ i e, found = Some i → port_connection (in_port (h i)) = "closed" →
            open (h i) = Rejects e →
            result = (Some i, [i],
                      {| sent := sent w; warnings := warnings w;
                         unhandled := unhandled w ++ [e] |}))
  ∧ (∀ i, found = Some i → port_connection (in_port (h i)) ≠ "closed" →
          result = (Some i, [], w)).
Proof.
  simpl. unfold useMIDIInput.
  destruct (pick _ r midiInputs) as [i|]; simpl;
    [destruct (String.eqb_spec (port_connection (in_port (h i))) "closed") as [Hc|Hc];
       [destruct (open (h i)) eqn:Hopen|]|];
    simpl; repeat split; intros;
    repeat match goal with
           | H : _ ∨ _ |- _ => destruct H
           | H : ∃ _, _ |- _ => destruct H
           | H : _ ∧ _ |- _ => destruct H
           | H : _ ∈ [] |- _ => apply elem_of_nil in H
           | H : _ ∈ [_] |- _ => apply list_elem_of_singleton in H
           end;
    simplify_eq;
    first [ done | by left | by (right; eexists)
          | by apply list_elem_of_singleton | congruence ].
Qed.

Lemma useMIDIInput_opens_closed_inputs_witness :
  useMIDIInput (ByName "in1") [0%nat]
    (λ _, {| in_port := Samples.port "in1"; onmidimessage := NoHandler;
             open := Rejects TypeError; close := Resolves |}) quiet
  = (Some 0%nat, [0%nat], {| sent := []; warnings := []; unhandled := [TypeError] |}).
Proof.
  apply (useMIDIInput_opens_closed_inputs (ByName "in1") [0%nat]
           (λ _, {| in_port := Samples.port "in1"; onmidimessage := NoHandler;
                    open := Rejects TypeError; close := Resolves |}) quiet);
    reflexivity.
Defined.

End Hooks.
